(** * snt: a self-updating deployment supervisor

    Shallow embedding of [snt.py]: the configuration store, the
    authenticated-URL transform, the source synchroniser
    ([clone_or_update_repo]), the process supervisor ([run_start_file]) and
    the polling loop of [main], followed by the properties proved about
    them.

    Python values are modelled as follows.
    - [str] is [string]; an optional string ([None] or a [str]) is
      [option string], and its truth value is [truthy].
    - a [dict] is a [gmap]; the configuration is the nested dictionary
      [{"repos": {key: {"url": .., "token": ..}}}].
    - exceptions are the constructors of [exn]; a computation either
      returns or raises ([outcome]).  [sys.exit(n)] raises [SystemExit n].
    - everything outside the program (the git client, the working copy on
      disk, the child processes, the clock) is an abstract host [W] with
      one operation per primitive the program calls; every such primitive
      may raise, which is also how an asynchronous [KeyboardInterrupt]
      reaches the program.  The file [config.json] is kept apart, as the
      value it holds.
    - the [while True] loop is unrolled a given number of times. *)

From Stdlib Require Import ZArith String Ascii Lia.
From stdpp Require Import gmap strings list fin_maps pretty.

Open Scope string_scope.

(** ** Exceptions and outcomes *)

Inductive exn : Type :=
| GitCommandError (msg : string)
| InvalidGitRepositoryError
| NoSuchPathError
| IndexError
| AttributeError
| TypeError
| ValueError
| KeyError (key : string)
| JSONDecodeError
| OSError (msg : string)
| UnboundLocalError
| KeyboardInterrupt
| SystemExit (code : Z).

Inductive outcome (A : Type) : Type :=
| Return (a : A)
| Raise (e : exn).
Arguments Return {A} a.
Arguments Raise {A} e.

(** [except GitCommandError], [except (IndexError, AttributeError)] and
    [except KeyboardInterrupt]: which exceptions each clause catches. *)
Definition is_GitCommandError (e : exn) : option string :=
  match e with GitCommandError msg => Some msg | _ => None end.

Definition is_IndexError_or_AttributeError (e : exn) : bool :=
  match e with IndexError | AttributeError => true | _ => false end.

Definition is_KeyboardInterrupt (e : exn) : bool :=
  match e with KeyboardInterrupt => true | _ => false end.

(** ** Strings *)

(** Truth value of an optional string: [None] and the empty string are
    false.  [nonempty o] is the string itself when [o] is true. *)
Definition nonempty (o : option string) : option string :=
  match o with
  | None => None
  | Some s => if String.eqb s "" then None else Some s
  end.

Definition truthy (o : option string) : bool :=
  match nonempty o with Some _ => true | None => false end.

(** [s.startswith(p)] *)
Definition startswith (s p : string) : bool := String.prefix p s.

Fixpoint string_drop (n : nat) (s : string) : string :=
  match n, s with
  | O, _ => s
  | S n', String _ s' => string_drop n' s'
  | S _, EmptyString => EmptyString
  end.

(** [s.replace(old, new, 1)]: the leftmost occurrence of [old] is replaced. *)
Fixpoint str_replace1 (old new s : string) : string :=
  if String.prefix old s then new ++ string_drop (String.length old) s
  else match s with
       | EmptyString => EmptyString
       | String c s' => String c (str_replace1 old new s')
       end.

(** [os.path.join(a, b)] on a POSIX host. *)
Definition endswith_sep (s : string) : bool :=
  match String.get (String.length s - 1) s with
  | Some c => Ascii.eqb c "/"%char
  | None => false
  end.

Definition path_join (a b : string) : string :=
  if startswith b "/" then b
  else if String.eqb a "" || endswith_sep a then a ++ b
  else a ++ "/" ++ b.

(** The line feed character. *)
Definition nl : string := String (Ascii.ascii_of_nat 10) EmptyString.

(** [str(x)] of an optional string inside an f-string. *)
Definition fmt (o : option string) : string :=
  match o with Some s => s | None => "None" end.

(** ** The authenticated URL *)

Definition get_authenticated_url (url token : option string)
  : outcome (option string) :=
  match nonempty token with
  | Some t =>
      match url with
      | None => Raise AttributeError
      | Some u =>
          if startswith u "https://" then
            Return (Some (str_replace1 "https://" ("https://" ++ t ++ "@") u))
          else if startswith u "http://" then
            Return (Some (str_replace1 "http://" ("http://" ++ t ++ "@") u))
          else Return url
      end
  | None => Return url
  end.

(** ** The configuration store *)

Definition CONFIG_FILE : string := "config.json".
Definition REPOS_DIR : string := "repos".

(** A repository entry is a dictionary of string fields, the repositories
    are a dictionary of entries, and the configuration is the top-level
    dictionary holding them under ["repos"]. *)
Abbreviation entry := (gmap string string).
Abbreviation repos := (gmap string (gmap string string)).
Abbreviation config := (gmap string (gmap string (gmap string string))).

Definition empty_config : config := {[ "repos" := ∅ ]}.

(** What [config.json] holds: a serialised configuration, or bytes that
    [json.load] rejects. *)
Inductive file : Type :=
| Json (c : config)
| Malformed.

(** The entry of [repo_id] in the repositories [rs], an identity without
    an entry counting as the empty entry. *)
Definition entry_before (rs : gmap string (gmap string string)) (repo_id : Z)
  : gmap string string :=
  default ∅ (rs !! pretty repo_id).

(** ** The host *)

(** A child process handle ([subprocess.Popen] object). *)
Definition handle : Type := nat.

(** One operation per primitive of GitPython, [os], [subprocess] and
    [time] that the program calls.  A repository object and its [origin]
    remote are named by the directory they were opened on. *)
Class Host (W : Type) : Type := {
  BASE_DIR : string;
  sys_executable : string;
  os_path_exists : string -> W -> outcome bool * W;
  Repo_clone_from : option string -> string -> W -> outcome unit * W;
  Repo_open : string -> W -> outcome unit * W;
  remotes_origin : string -> W -> outcome unit * W;
  origin_fetch : string -> W -> outcome unit * W;
  active_branch_name : string -> W -> outcome string * W;
  head_commit_hexsha : string -> W -> outcome string * W;
  origin_refs_hexsha : string -> string -> W -> outcome string * W;
  git_reset_hard : string -> W -> outcome unit * W;
  git_clean_fd : string -> W -> outcome unit * W;
  origin_pull : string -> W -> outcome unit * W;
  Popen : list string -> W -> outcome handle * W;
  Popen_terminate : handle -> W -> outcome unit * W;
  Popen_wait : handle -> W -> outcome Z * W;
  time_sleep : Z -> W -> outcome unit * W
}.

(** The primitive calls, as they are recorded in the trace of a run. *)
Inductive call : Type :=
| CExists (path : string)
| CClone (url : option string) (dir : string)
| COpen (dir : string)
| COrigin (dir : string)
| CFetch (dir : string)
| CBranch (dir : string)
| CHead (dir : string)
| CRemoteRef (dir branch : string)
| CReset (dir : string)
| CClean (dir : string)
| CPull (dir : string)
| CPopen (argv : list string)
| CTerminate (h : handle)
| CWait (h : handle)
| CSleep (secs : Z).

Inductive value : Type :=
| VNone
| VBool (b : bool)
| VStr (s : string)
| VInt (z : Z)
| VHandle (h : handle).

(** A call together with what it returned or raised. *)
Inductive event : Type :=
| Event (c : call) (r : outcome value).

Inductive main_result : Type :=
| StillPolling
| HelpShown.

(** Command-line arguments, as [argparse] hands them to [main]. *)
Record args : Type := mkArgs {
  token : option string;
  command : option string;
  repo : Z;
  repo_url : option string;
  start_file : string;
  check_time : Z;
  debug : bool
}.

(** ** Programs: state passing with exceptions *)

Section Program.
Context {W : Type} `{Host W}.

(** The state a run threads through: the host, the content of
    [CONFIG_FILE] ([None] when the file does not exist), what was printed,
    the primitive calls made so far (oldest first), and the local
    variable [process] of [main], which its interrupt handler reads. *)
Record state : Type := mkState {
  world : W;
  config_file : option file;
  stdout : list string;
  trace : list event;
  process : option handle
}.

Definition prog (A : Type) : Type := state -> outcome A * state.

Definition ret {A} (a : A) : prog A := fun s => (Return a, s).

Definition raise {A} (e : exn) : prog A := fun s => (Raise e, s).

Definition bind {A B} (m : prog A) (k : A -> prog B) : prog B :=
  fun s =>
    match m s with
    | (Return a, s') => k a s'
    | (Raise e, s') => (Raise e, s')
    end.

Definition lift {A} (o : outcome A) : prog A := fun s => (o, s).

(** [try: body except <clause>: handler]: [handler e] is [None] when the
    clause does not catch [e]. *)
Definition try_except {A} (body : prog A) (handler : exn -> option (prog A))
  : prog A :=
  fun s =>
    match body s with
    | (Return a, s') => (Return a, s')
    | (Raise e, s') =>
        match handler e with
        | Some h => h s'
        | None => (Raise e, s')
        end
    end.

Definition print (line : string) : prog unit :=
  fun s => (Return tt,
            mkState (world s) (config_file s) (stdout s ++ [line])
                    (trace s) (process s)).

Definition when (b : bool) (m : prog unit) : prog unit :=
  if b then m else ret tt.

(** A primitive call: the host answers, and the call is recorded with
    its answer. *)
Definition prim {A} (c : call) (v : A -> value)
           (op : W -> outcome A * W) : prog A :=
  fun s =>
    let (r, w) := op (world s) in
    (r, mkState w (config_file s) (stdout s)
                (trace s ++ [Event c match r with
                                     | Return a => Return (v a)
                                     | Raise e => Raise e
                                     end])
                (process s)).

Definition set_process (h : handle) : prog unit :=
  fun s => (Return tt,
            mkState (world s) (config_file s) (stdout s) (trace s) (Some h)).

Definition get_process : prog handle :=
  fun s => match process s with
           | Some h => (Return h, s)
           | None => (Raise UnboundLocalError, s)
           end.

(** [while True: body], unrolled [fuel] times; returning means the loop
    is still running. *)
Fixpoint while_true (fuel : nat) (body : prog unit) : prog unit :=
  match fuel with
  | O => ret tt
  | S n => bind body (fun _ => while_true n body)
  end.

End Program.

Arguments state W : clear implicits.
Arguments prog W A : clear implicits.

Declare Scope prog_scope.
Delimit Scope prog_scope with prog.
Notation "'let*' x ':=' m 'in' k" := (bind m (fun x => k))
  (at level 10, x name, m at level 100, k at level 200) : prog_scope.
Notation "'run' m 'in' k" := (bind m (fun _ => k))
  (at level 10, m at level 100, k at level 200) : prog_scope.

(** ** The program *)

Section Snt.
Context {W : Type} `{Host W}.
Local Open Scope prog_scope.

(** *** Primitives, recorded *)

Definition exists_ (path : string) : prog W bool :=
  prim (CExists path) VBool (os_path_exists path).
Definition clone_from (url : option string) (dir : string) : prog W unit :=
  prim (CClone url dir) (fun _ => VNone) (Repo_clone_from url dir).
Definition open_repo (dir : string) : prog W unit :=
  prim (COpen dir) (fun _ => VNone) (Repo_open dir).
Definition origin (dir : string) : prog W unit :=
  prim (COrigin dir) (fun _ => VNone) (remotes_origin dir).
Definition fetch (dir : string) : prog W unit :=
  prim (CFetch dir) (fun _ => VNone) (origin_fetch dir).
Definition active_branch (dir : string) : prog W string :=
  prim (CBranch dir) VStr (active_branch_name dir).
Definition head_commit (dir : string) : prog W string :=
  prim (CHead dir) VStr (head_commit_hexsha dir).
Definition remote_ref (dir branch : string) : prog W string :=
  prim (CRemoteRef dir branch) VStr (origin_refs_hexsha dir branch).
Definition reset_hard (dir : string) : prog W unit :=
  prim (CReset dir) (fun _ => VNone) (git_reset_hard dir).
Definition clean_fd (dir : string) : prog W unit :=
  prim (CClean dir) (fun _ => VNone) (git_clean_fd dir).
Definition pull (dir : string) : prog W unit :=
  prim (CPull dir) (fun _ => VNone) (origin_pull dir).
Definition popen (argv : list string) : prog W handle :=
  prim (CPopen argv) VHandle (Popen argv).
Definition terminate (h : handle) : prog W unit :=
  prim (CTerminate h) (fun _ => VNone) (Popen_terminate h).
Definition wait (h : handle) : prog W Z :=
  prim (CWait h) VInt (Popen_wait h).
Definition sleep (secs : Z) : prog W unit :=
  prim (CSleep secs) (fun _ => VNone) (time_sleep secs).

(** *** Config store *)

Definition load_config : prog W config :=
  fun s =>
    match config_file s with
    | Some (Json c) => (Return c, s)
    | Some Malformed => (Raise JSONDecodeError, s)
    | None => (Return empty_config, s)
    end.

Definition save_config (cfg : config) : prog W unit :=
  fun s => (Return tt,
            mkState (world s) (Some (Json cfg)) (stdout s) (trace s)
                    (process s)).

(** [config["repos"]] *)
Definition config_repos (cfg : config) : outcome repos :=
  match cfg !! "repos" with
  | Some rs => Return rs
  | None => Raise (KeyError "repos")
  end.

Definition get_repo_config (cfg : config) (repo_id : Z)
  : outcome (option entry) :=
  match config_repos cfg with
  | Return rs => Return (rs !! pretty repo_id)
  | Raise e => Raise e
  end.

(** [config["repos"][repo_key][field] = v]; the entry is there when this
    runs, [update_repo_config] having created it. *)
Definition set_field (repo_key field v : string) (rs : repos) : repos :=
  match rs !! repo_key with
  | Some e => <[repo_key := <[field := v]> e]> rs
  | None => rs
  end.

(** The dictionary is updated in place; the updated dictionary is
    returned here, to be used by the caller in its stead. *)
Definition update_repo_config (cfg : config) (repo_id : Z)
           (url token : option string) : prog W config :=
  let repo_key := pretty repo_id in
  let* rs := lift (config_repos cfg) in
  let rs1 := match rs !! repo_key with
             | None => <[repo_key := ∅]> rs
             | Some _ => rs
             end in
  let rs2 := match nonempty url with
             | Some u => set_field repo_key "url" u rs1
             | None => rs1
             end in
  let rs3 := match nonempty token with
             | Some t => set_field repo_key "token" t rs2
             | None => rs2
             end in
  let cfg' := <["repos" := rs3]> cfg in
  run save_config cfg' in
  ret cfg'.

(** *** Source synchroniser *)

Definition on_GitCommandError {A} (h : string -> prog W A) (e : exn)
  : option (prog W A) :=
  match is_GitCommandError e with
  | Some msg => Some (h msg)
  | None => None
  end.

Definition clone_or_update_repo (repo_config : entry)
           (local_repo_dir : string) (debug : bool) : prog W bool :=
  let url := repo_config !! "url" in
  let token := repo_config !! "token" in
  let* auth_url := lift (get_authenticated_url url token) in
  let* has_git := exists_ (path_join local_repo_dir ".git") in
  if negb has_git then
    run when debug (print ("[DEBUG] Cloning repository from " ++ fmt url
                           ++ " to " ++ local_repo_dir)) in
    try_except
      (run clone_from auth_url local_repo_dir in
       ret true)
      (on_GitCommandError (fun msg =>
         run print ("Error cloning repository: " ++ msg) in
         ret false))
  else
    run when debug (print ("[DEBUG] Repository already cloned in "
                           ++ local_repo_dir
                           ++ ". Checking for updates...")) in
    run open_repo local_repo_dir in
    run origin local_repo_dir in
    let* fetched :=
      try_except
        (run fetch local_repo_dir in
         ret true)
        (on_GitCommandError (fun msg =>
           run print ("Error fetching updates: " ++ msg) in
           ret false)) in
    if negb fetched then ret false
    else
      let* branch_name := active_branch local_repo_dir in
      let* local_commit := head_commit local_repo_dir in
      let* remote :=
        try_except
          (let* c := remote_ref local_repo_dir branch_name in
           ret (Some c))
          (fun e =>
             if is_IndexError_or_AttributeError e then
               Some (run when debug (print ("[DEBUG] Remote branch "
                                            ++ branch_name
                                            ++ " not found.")) in
                     ret None)
             else None) in
      match remote with
      | None => ret false
      | Some remote_commit =>
          run when debug (print ("[DEBUG] Local commit: " ++ local_commit)) in
          run when debug (print ("[DEBUG] Remote commit: "
                                 ++ remote_commit)) in
          if negb (String.eqb local_commit remote_commit) then
            run when debug (print "[DEBUG] Updates found. Executing pull.") in
            try_except
              (run reset_hard local_repo_dir in
               run clean_fd local_repo_dir in
               run pull local_repo_dir in
               ret true)
              (on_GitCommandError (fun msg =>
                 run print ("Error updating repository: " ++ msg) in
                 ret false))
          else
            run when debug (print "[DEBUG] No updates found.") in
            ret false
      end.

(** *** Process supervisor *)

Definition run_start_file (local_path start_file : string) (debug : bool)
  : prog W handle :=
  let start_file_path := path_join local_path start_file in
  let* found := exists_ start_file_path in
  if negb found then
    run print ("File " ++ start_file
               ++ " not found in repository directory.") in
    raise (SystemExit 1)
  else
    run when debug (print ("[DEBUG] Running file: " ++ start_file_path)) in
    popen [sys_executable; start_file_path].

(** *** Sync loop *)

Definition help_text : string :=
  "Command-line utility for downloading and managing GitHub repositories.".

(** The body of [if updated:] in the loop of [main]. *)
Definition restart (a : args) (local_repo_dir : string) : prog W unit :=
  run when (debug a)
           (print "[DEBUG] Updates detected. Restarting process.") in
  let* p := get_process in
  run terminate p in
  run wait p in
  let* p' := run_start_file local_repo_dir (start_file a) (debug a) in
  set_process p'.

(** One turn of the [while True] loop of [main]. *)
Definition poll (a : args) (repo_config : entry) (local_repo_dir : string)
  : prog W unit :=
  run sleep (check_time a) in
  run when (debug a) (print "[DEBUG] Checking for updates...") in
  let* updated := clone_or_update_repo repo_config local_repo_dir (debug a) in
  if updated then restart a local_repo_dir
  else ret tt.

(** The [except KeyboardInterrupt] clause of [main]. *)
Definition on_interrupt (a : args) (e : exn) : option (prog W main_result) :=
  if is_KeyboardInterrupt e then
    Some (run when (debug a) (print (nl ++ "[DEBUG] Terminating utility.")) in
          let* p := get_process in
          run terminate p in
          run wait p in
          raise (SystemExit 0))
  else None.

(** The repository entry [main] works with: registered when unknown and
    a URL is given, its token refreshed when known and a token is given. *)
Definition resolve_repo_config (a : args) (cfg : config)
  : prog W (option entry) :=
  let* repo_config := lift (get_repo_config cfg (repo a)) in
  match repo_config with
  | None =>
      if truthy (repo_url a) then
        run when (debug a)
                 (print ("[DEBUG] Repository with number " ++ pretty (repo a)
                         ++ " not found. Creating a new entry.")) in
        let* cfg' := update_repo_config cfg (repo a) (repo_url a) (token a) in
        lift (get_repo_config cfg' (repo a))
      else
        run print ("Configuration for repository number " ++ pretty (repo a)
                   ++ " not found. Specify --repo-url to create an entry.") in
        raise (SystemExit 1)
  | Some rc =>
      if truthy (token a) then
        let* cfg' := update_repo_config cfg (repo a) None (token a) in
        lift (get_repo_config cfg' (repo a))
      else ret (Some rc)
  end.

Definition local_repo_dir : string := path_join BASE_DIR "repo".

(** [main] up to the [try] statement: the entry is resolved, the first
    synchronisation pass is made and the entry file is started. *)
Definition startup (a : args) : prog W entry :=
  let* cfg := load_config in
  let* resolved := resolve_repo_config a cfg in
  let* repo_config :=
    match resolved with
    | Some rc => ret rc
    | None => raise AttributeError
    end in
  run when (debug a)
           (print "[DEBUG] Checking and downloading repository...") in
  run clone_or_update_repo repo_config local_repo_dir (debug a) in
  run when (debug a) (print "[DEBUG] Running start file.") in
  let* p := run_start_file local_repo_dir (start_file a) (debug a) in
  run set_process p in
  ret repo_config.

(** The [try] statement of [main]. *)
Definition supervise (fuel : nat) (a : args) (repo_config : entry)
  : prog W main_result :=
  try_except
    (run while_true fuel (poll a repo_config local_repo_dir) in
     ret StillPolling)
    (on_interrupt a).

Definition main (fuel : nat) (a : args) : prog W main_result :=
  match command a with
  | Some "start" =>
      let* repo_config := startup a in
      supervise fuel a repo_config
  | _ =>
      run print help_text in
      ret HelpShown
  end.
End Snt.

(** ** A simulated host

    A small deterministic host, used to run the program on concrete
    inputs.  It holds the paths that exist, the upstream repository (its
    files, the tip of its branch, and the commits pushed to it later, one
    before each fetch), the working copy (checked-out branch, local head,
    remote-tracking reference), the next process handle, and a fault
    script: the n-th primitive call raises the n-th entry of the script
    when that entry is an exception. *)

Record sim : Type := mkSim {
  sim_files : list string;
  sim_upstream_files : list string;
  sim_upstream_tip : option string;
  sim_pushes : list string;
  sim_branch : option string;
  sim_local : option string;
  sim_tracking : option string;
  sim_next : handle;
  sim_faults : list (option exn)
}.

Definition sim_set_faults (w : sim) (fs : list (option exn)) : sim :=
  mkSim (sim_files w) (sim_upstream_files w) (sim_upstream_tip w)
        (sim_pushes w) (sim_branch w) (sim_local w) (sim_tracking w)
        (sim_next w) fs.

(** Run [op] unless the fault script says this call raises. *)
Definition sim_call {A} (op : sim -> outcome A * sim) (w : sim)
  : outcome A * sim :=
  match sim_faults w with
  | Some e :: fs => (Raise e, sim_set_faults w fs)
  | None :: fs => op (sim_set_faults w fs)
  | [] => op w
  end.

Definition sim_has (w : sim) (path : string) : bool :=
  existsb (String.eqb path) (sim_files w).

Definition sim_nonempty_dir (w : sim) (dir : string) : bool :=
  existsb (String.prefix (dir ++ "/")) (sim_files w).

(** [git clone] refuses a destination that is a non-empty directory. *)
Definition sim_clone (dir : string) (w : sim) : outcome unit * sim :=
  if sim_nonempty_dir w dir then
    (Raise (GitCommandError "destination path already exists and is not an empty directory"), w)
  else
    (Return tt,
     mkSim (sim_files w ++ path_join dir ".git"
              :: map (path_join dir) (sim_upstream_files w))
           (sim_upstream_files w) (sim_upstream_tip w) (sim_pushes w)
           (Some "main") (sim_upstream_tip w) (sim_upstream_tip w)
           (sim_next w) (sim_faults w)).

Definition sim_open (dir : string) (w : sim) : outcome unit * sim :=
  if sim_has w (path_join dir ".git") then (Return tt, w)
  else (Raise InvalidGitRepositoryError, w).

Definition sim_fetch (w : sim) : outcome unit * sim :=
  match sim_pushes w with
  | c :: rest =>
      (Return tt,
       mkSim (sim_files w) (sim_upstream_files w) (Some c) rest
             (sim_branch w) (sim_local w) (Some c)
             (sim_next w) (sim_faults w))
  | [] =>
      (Return tt,
       mkSim (sim_files w) (sim_upstream_files w) (sim_upstream_tip w) []
             (sim_branch w) (sim_local w) (sim_upstream_tip w)
             (sim_next w) (sim_faults w))
  end.

Definition sim_pull (w : sim) : outcome unit * sim :=
  (Return tt,
   mkSim (sim_files w) (sim_upstream_files w) (sim_upstream_tip w)
         (sim_pushes w) (sim_branch w) (sim_tracking w) (sim_tracking w)
         (sim_next w) (sim_faults w)).

Definition sim_popen (w : sim) : outcome handle * sim :=
  (Return (sim_next w),
   mkSim (sim_files w) (sim_upstream_files w) (sim_upstream_tip w)
         (sim_pushes w) (sim_branch w) (sim_local w) (sim_tracking w)
         (S (sim_next w)) (sim_faults w)).

Definition sim_read (field : sim -> option string) (missing : exn) (w : sim)
  : outcome string * sim :=
  match field w with
  | Some v => (Return v, w)
  | None => (Raise missing, w)
  end.

#[export] Instance sim_host : Host sim := {|
  BASE_DIR := "/srv/snt";
  sys_executable := "/usr/bin/python3";
  os_path_exists path := sim_call (fun w => (Return (sim_has w path), w));
  Repo_clone_from _ dir := sim_call (sim_clone dir);
  Repo_open dir := sim_call (sim_open dir);
  remotes_origin _ := sim_call (fun w => (Return tt, w));
  origin_fetch _ := sim_call sim_fetch;
  active_branch_name _ := sim_call (sim_read sim_branch TypeError);
  head_commit_hexsha _ := sim_call (sim_read sim_local ValueError);
  origin_refs_hexsha _ _ := sim_call (sim_read sim_tracking IndexError);
  git_reset_hard _ := sim_call (fun w => (Return tt, w));
  git_clean_fd _ := sim_call (fun w => (Return tt, w));
  origin_pull _ := sim_call sim_pull;
  Popen _ := sim_call sim_popen;
  Popen_terminate _ := sim_call (fun w => (Return tt, w));
  Popen_wait _ := sim_call (fun w => (Return (-15)%Z, w));
  time_sleep _ := sim_call (fun w => (Return tt, w))
|}.

(** A host on which nothing has been cloned yet; upstream holds [app.py]. *)
Definition fresh_sim (faults : list (option exn)) : sim :=
  mkSim [] ["app.py"; "README.md"] (Some "c0ffee") [] None None None 100
        faults.

(** A host with a working copy at [local] whose upstream is at [tip] and
    receives [pushes]. *)
Definition cloned_sim (local tip : string) (pushes : list string)
           (faults : list (option exn)) : sim :=
  mkSim ["/srv/snt/repo/.git"; "/srv/snt/repo/app.py"]
        ["app.py"] (Some tip) pushes (Some "main") (Some local) (Some local)
        100 faults.

(** A host whose local path holds [app.py] but is no working copy. *)
Definition stale_sim : sim :=
  mkSim ["/srv/snt/repo/app.py"] ["app.py"] (Some "c0ffee") []
        None None None 100 [].

Definition init {W} (w : W) (f : option file) : state W :=
  mkState w f [] [] None.

Definition start_args (tok url : option string) : args :=
  mkArgs tok (Some "start") 7 url "app.py" 60 false.

Definition stored (url : string) : option file :=
  Some (Json {[ "repos" := {[ "7" := {[ "url" := url ]} ]} ]}).

Definition demo_entry : entry := {[ "url" := "https://h/r.git" ]}.

(** Inputs of the runs used as examples: the stored entry of repository
    7, a working copy that is up to date, and fault scripts that interrupt
    the tenth and the fourth primitive call. *)
Definition demo_args : args := start_args None None.

Definition demo_store : option file := stored "https://h/r.git".

Definition interrupted_in_sleep : state sim :=
  init (cloned_sim "a" "a" []
          [None; None; None; None; None; None; None; None; None;
           Some KeyboardInterrupt])
       demo_store.

Definition interrupted_in_first_fetch : state sim :=
  init (cloned_sim "a" "a" [] [None; None; None; Some KeyboardInterrupt])
       demo_store.

Definition upstream_advances : state sim :=
  init (cloned_sim "a" "a" ["a"; "b"] []) demo_store.

Definition clone_fails : state sim :=
  init (fresh_sim [None; Some (GitCommandError "exit code(128)")]) demo_store.

(** ** Traces

    What the trace of a run says about the supervised processes: a handle
    is live from the [Popen] that returned it until a [wait] on it
    returns. *)

Definition started (e : event) : option handle :=
  match e with
  | Event (CPopen _) (Return (VHandle h)) => Some h
  | _ => None
  end.

Definition reaped (e : event) : option handle :=
  match e with
  | Event (CWait h) (Return _) => Some h
  | _ => None
  end.

Definition process_call (c : call) : bool :=
  match c with
  | CPopen _ | CTerminate _ | CWait _ => true
  | _ => false
  end.

Definition exists_call (c : call) : bool :=
  match c with
  | CExists _ => true
  | _ => false
  end.

(** An event that is no call on a process. *)
Definition quiet (e : event) : bool :=
  match e with Event c _ => negb (process_call c) end.

Fixpoint remove_handle (h : handle) (l : list handle) : list handle :=
  match l with
  | [] => []
  | x :: l' => if Nat.eqb x h then l' else x :: remove_handle h l'
  end.

Definition live_after (l : list handle) (e : event) : list handle :=
  match started e with
  | Some h => l ++ [h]
  | None =>
      match reaped e with
      | Some h => remove_handle h l
      | None => l
      end
  end.

(** The handles that are live after the events of [t]. *)
Definition live (t : list event) : list handle := fold_left live_after t [].

(** The handle the most recent successful [Popen] returned. *)
Definition last_started (t : list event) : option handle :=
  fold_left (fun o e => match started e with Some h => Some h | None => o end)
            t None.

(** At every point of the trace at most one handle is live. *)
Definition one_at_a_time (t : list event) : Prop :=
  forall pre post : list event,
    t = (pre ++ post)%list -> length (live pre) <= 1.

(** The events [pre] end with the one live handle terminated, then waited
    on with the wait returning, and no call on a process after that. *)
Definition stopped_before (pre : list event) : Prop :=
  exists t1 h0 rc t3,
    pre = (t1 ++ Event (CTerminate h0) (Return VNone)
              :: Event (CWait h0) (Return (VInt rc)) :: t3)%list
    /\ live t1 = [h0]
    /\ forallb quiet t3 = true.

(** Whenever a process is created, no handle is live, and either no
    process was created before or the previous one was stopped first. *)
Definition restarts_in_order (t : list event) : Prop :=
  forall pre argv h post,
    t = (pre ++ Event (CPopen argv) (Return (VHandle h)) :: post)%list ->
    live pre = []
    /\ (last_started pre = None \/ stopped_before pre).

Definition well_sequenced (t : list event) : Prop :=
  one_at_a_time t /\ restarts_in_order t.

(** ** Runs

    The events a run of each part of the program can add to the trace,
    with its outcome.  [Section Sound] shows that the program adds no
    others. *)

(** A synchronisation pass makes no call on a process.  When it returns,
    its last call was not an existence check; when it raises, either its
    last call raised that exception or it raised [AttributeError] before
    any call. *)
Definition sync_run (r : outcome bool) (evs : list event) : Prop :=
  forallb quiet evs = true
  /\ match r with
     | Return _ =>
         exists c res, last evs = Some (Event c res) /\ exists_call c = false
     | Raise e =>
         (evs = [] /\ e = AttributeError)
         \/ exists c, last evs = Some (Event c (Raise e))
     end.

Inductive start_run (path : string) : outcome handle -> list event -> Prop :=
| start_check_raised e :
    start_run path (Raise e) [Event (CExists path) (Raise e)]
| start_missing :
    start_run path (Raise (SystemExit 1))
              [Event (CExists path) (Return (VBool false))]
| start_spawn_raised argv e :
    start_run path (Raise e)
              [Event (CExists path) (Return (VBool true));
               Event (CPopen argv) (Raise e)]
| start_spawned argv h :
    start_run path (Return h)
              [Event (CExists path) (Return (VBool true));
               Event (CPopen argv) (Return (VHandle h))].

(** [restart_run path p r evs p']: restarting with [process = p] adds
    [evs], ends in [r] and leaves [process = p']. *)
Inductive restart_run (path : string) (p : handle)
  : outcome unit -> list event -> handle -> Prop :=
| restart_terminate_raised e :
    restart_run path p (Raise e) [Event (CTerminate p) (Raise e)] p
| restart_wait_raised e :
    restart_run path p (Raise e)
                [Event (CTerminate p) (Return VNone);
                 Event (CWait p) (Raise e)] p
| restart_start_raised rc e evs :
    start_run path (Raise e) evs ->
    restart_run path p (Raise e)
                (Event (CTerminate p) (Return VNone)
                   :: Event (CWait p) (Return (VInt rc)) :: evs) p
| restart_done rc p' evs :
    start_run path (Return p') evs ->
    restart_run path p (Return tt)
                (Event (CTerminate p) (Return VNone)
                   :: Event (CWait p) (Return (VInt rc)) :: evs) p'.

Inductive poll_run (secs : Z) (path : string) (p : handle)
  : outcome unit -> list event -> handle -> Prop :=
| poll_sleep_raised e :
    poll_run secs path p (Raise e) [Event (CSleep secs) (Raise e)] p
| poll_sync_raised e evs :
    sync_run (Raise e) evs ->
    poll_run secs path p (Raise e)
             (Event (CSleep secs) (Return VNone) :: evs) p
| poll_unchanged evs :
    sync_run (Return false) evs ->
    poll_run secs path p (Return tt)
             (Event (CSleep secs) (Return VNone) :: evs) p
| poll_restarted evs r evs' p' :
    sync_run (Return true) evs ->
    restart_run path p r evs' p' ->
    poll_run secs path p r
             (Event (CSleep secs) (Return VNone) :: evs ++ evs') p'.

Inductive loop_run (secs : Z) (path : string) (p : handle)
  : outcome unit -> list event -> handle -> Prop :=
| loop_running :
    loop_run secs path p (Return tt) [] p
| loop_raised e evs p' :
    poll_run secs path p (Raise e) evs p' ->
    loop_run secs path p (Raise e) evs p'
| loop_again evs p' r evs' p'' :
    poll_run secs path p (Return tt) evs p' ->
    loop_run secs path p' r evs' p'' ->
    loop_run secs path p r (evs ++ evs') p''.

(** [startup_run unknown path r evs]: what [main] adds before its [try]
    statement.  [unknown] stands for the repository being unknown with no
    URL to register it: resolving the entry exits with status 1 then, and
    only then. *)
Inductive startup_run (unknown : Prop) (path : string)
  : outcome handle -> list event -> Prop :=
| startup_config_raised e :
    (forall code, e = SystemExit code -> code = 1%Z /\ unknown) ->
    (unknown -> e = SystemExit 1) ->
    startup_run unknown path (Raise e) []
| startup_sync_raised e evs :
    ~ unknown ->
    sync_run (Raise e) evs ->
    startup_run unknown path (Raise e) evs
| startup_started b r evs evs' :
    ~ unknown ->
    sync_run (Return b) evs ->
    start_run path r evs' ->
    startup_run unknown path r (evs ++ evs').

(** The [except KeyboardInterrupt] clause, with [process = p]. *)
Inductive stop_run (p : handle) : outcome main_result -> list event -> Prop :=
| stop_terminate_raised e :
    stop_run p (Raise e) [Event (CTerminate p) (Raise e)]
| stop_wait_raised e :
    stop_run p (Raise e)
             [Event (CTerminate p) (Return VNone); Event (CWait p) (Raise e)]
| stop_done rc :
    stop_run p (Raise (SystemExit 0))
             [Event (CTerminate p) (Return VNone);
              Event (CWait p) (Return (VInt rc))].

(** The [try] statement of [main], entered with [process = p]. *)
Inductive supervise_run (secs : Z) (path : string) (p : handle)
  : outcome main_result -> list event -> Prop :=
| supervise_running evs p' :
    loop_run secs path p (Return tt) evs p' ->
    supervise_run secs path p (Return StillPolling) evs
| supervise_raised e evs p' :
    loop_run secs path p (Raise e) evs p' ->
    is_KeyboardInterrupt e = false ->
    supervise_run secs path p (Raise e) evs
| supervise_interrupted evs p' r evs' :
    loop_run secs path p (Raise KeyboardInterrupt) evs p' ->
    stop_run p' r evs' ->
    supervise_run secs path p r (evs ++ evs').

(** The runs of [main] with the [start] command. *)
Inductive main_run (unknown : Prop) (secs : Z) (path : string)
  : outcome main_result -> list event -> Prop :=
| main_startup_raised e evs :
    startup_run unknown path (Raise e) evs ->
    main_run unknown secs path (Raise e) evs
| main_supervised p evs r evs' :
    startup_run unknown path (Return p) evs ->
    supervise_run secs path p r evs' ->
    main_run unknown secs path r (evs ++ evs').

(** The repository is unknown to the store and no URL was given. *)
Definition unknown_without_url {W} `{Host W} (a : args) (s : state W) : Prop :=
  exists cfg,
    load_config s = (Return cfg, s)
    /\ get_repo_config cfg (repo a) = Return None
    /\ truthy (repo_url a) = false.

(** The path of the entry file, and the existence check that found it
    missing. *)
Definition entry_path {W} `{Host W} (a : args) : string :=
  path_join local_repo_dir (start_file a).

Definition entry_missing (path : string) : event :=
  Event (CExists path) (Return (VBool false)).

(** Some primitive call of the trace raised [SystemExit]. *)
Definition host_exited (t : list event) : Prop :=
  exists c code, In (Event c (Raise (SystemExit code))) t.

(** ** Further definitions used by the properties *)

(** The repositories dictionary [update_repo_config] leaves, written as one
    expression. *)
Definition updated_repos (rs : gmap string (gmap string string))
           (repo_key : string) (url tok : option string)
  : gmap string (gmap string string) :=
  let rs1 := match rs !! repo_key with
             | None => <[repo_key := ∅]> rs
             | Some _ => rs
             end in
  let rs2 := match nonempty url with
             | Some u => set_field repo_key "url" u rs1
             | None => rs1
             end in
  match nonempty tok with
  | Some t => set_field repo_key "token" t rs2
  | None => rs2
  end.

(** The calls of the git client and the existence check. *)
Definition git_call (c : call) : bool :=
  match c with
  | CPopen _ | CTerminate _ | CWait _ | CSleep _ => false
  | _ => true
  end.

Definition git_event (e : event) : bool :=
  match e with Event c _ => git_call c end.

Definition clone_event (e : event) : bool :=
  match e with Event (CClone _ _) _ => true | _ => false end.

(** The calls that change the working tree of an existing working copy. *)
Definition discard_event (e : event) : bool :=
  match e with
  | Event (CReset _ | CClean _ | CPull _) _ => true
  | _ => false
  end.

(** Two states that differ at most in what was printed. *)
Definition same_run {W} (s1 s2 : state W) : Prop :=
  world s1 = world s2
  /\ config_file s1 = config_file s2
  /\ trace s1 = trace s2
  /\ process s1 = process s2.

Definition agree {W A} (x y : outcome A * state W) : Prop :=
  fst x = fst y /\ same_run (snd x) (snd y).

Definition with_debug (a : args) (d : bool) : args :=
  mkArgs (token a) (command a) (repo a) (repo_url a) (start_file a)
         (check_time a) d.

(** The line a synchronisation pass prints for a caught
    [GitCommandError], by the call that raised it. *)
Definition raised_git_error (r : outcome value) : option string :=
  match r with
  | Raise (GitCommandError msg) => Some msg
  | _ => None
  end.

Definition reported (e : event) : option string :=
  match e with
  | Event c r =>
      match c with
      | CClone _ _ =>
          option_map (String.append "Error cloning repository: ")
                     (raised_git_error r)
      | CFetch _ =>
          option_map (String.append "Error fetching updates: ")
                     (raised_git_error r)
      | CReset _ | CClean _ | CPull _ =>
          option_map (String.append "Error updating repository: ")
                     (raised_git_error r)
      | _ => None
      end
  end.

Definition reported_lines (evs : list event) : list string :=
  match last evs with
  | Some e => match reported e with Some line => [line] | None => [] end
  | None => []
  end.

(** The calls whose return makes a synchronisation pass report a change. *)
Definition changed_call (c : call) : bool :=
  match c with
  | CClone _ _ | CPull _ => true
  | _ => false
  end.

Definition terminate_event (e : event) : bool :=
  match e with Event (CTerminate _) _ => true | _ => false end.

(** What may come right before a [terminate]: a clone or a pull that
    returned, or a call that raised [KeyboardInterrupt]. *)
Definition calls_for_terminate (o : option event) : Prop :=
  (exists c v, o = Some (Event c (Return v)) /\ changed_call c = true)
  \/ (exists c, o = Some (Event c (Raise KeyboardInterrupt))).

Definition terminations_justified (t : list event) : Prop :=
  forall pre h res post,
    t = (pre ++ Event (CTerminate h) res :: post)%list ->
    calls_for_terminate (last pre).

(** Further inputs of example runs: a fetch that fails in the first turn
    of the loop, a detached head found in the first turn, a state in which
    process 100 runs and the entry file is gone, and a command line
    without a command. *)
Definition fetch_fails_in_turn : state sim :=
  init (cloned_sim "a" "a" []
          [None; None; None; None; Some (GitCommandError "exit code(128)")])
       None.

Definition detached_in_loop : state sim :=
  init (cloned_sim "a" "a" []
          [None; None; None; None; None; None; None; None; None;
           None; None; None; None; None; Some TypeError])
       demo_store.

Definition entry_gone : state sim :=
  mkState (fresh_sim []) None []
          [Event (CPopen ["/usr/bin/python3"; "/srv/snt/repo/app.py"])
                 (Return (VHandle 100))]
          (Some 100).

Definition no_command : args := mkArgs None None 0 None "" 0 false.

Definition demo_config : config :=
  {[ "repos" := {[ "7" := {[ "url" := "https://h/r.git" ]} ]} ]}.

(** ** Tactics *)

(** Unfold the program combinators and let the host answer as the
    hypotheses say. *)
Ltac run_prog :=
  repeat (progress
            (cbv beta iota zeta
                 delta [bind lift ret raise try_except when print
                        on_GitCommandError exists_ clone_from open_repo origin
                        fetch active_branch head_commit remote_ref reset_hard
                        clean_fd pull popen terminate wait sleep prim
                        set_process get_process
                        is_GitCommandError is_IndexError_or_AttributeError
                        is_KeyboardInterrupt negb];
             cbn [world config_file stdout trace process fst snd])
          || match goal with
             | Hop : ?op ?w = (_, _) |- context [?op ?w] => rewrite Hop
             end).

(** Case analysis on every answer of the host along a program. *)
Ltac unfold_prog :=
  cbv beta iota zeta
      delta [bind lift ret raise try_except when print on_GitCommandError
             exists_ clone_from open_repo origin fetch active_branch
             head_commit remote_ref reset_hard clean_fd pull popen terminate
             wait sleep prim set_process get_process negb];
  cbn [world config_file stdout trace process fst snd].

Ltac host_case :=
  match goal with
  | |- context [if ?b then _ else _] => is_var b; destruct b
  | |- context [match is_GitCommandError ?e with _ => _ end] =>
      destruct (is_GitCommandError e) eqn:?
  | |- context [if is_IndexError_or_AttributeError ?e then _ else _] =>
      destruct (is_IndexError_or_AttributeError e) eqn:?
  | |- context [if is_KeyboardInterrupt ?e then _ else _] =>
      destruct (is_KeyboardInterrupt e) eqn:?
  | |- context [if String.eqb ?a ?b then _ else _] =>
      destruct (String.eqb a b) eqn:?
  | |- context [let (_, _) := ?op ?w in _] =>
      let r := fresh "r" in
      let w' := fresh "w" in
      destruct (op w) as [r w'] eqn:?; destruct r
  end.

Ltac conjs := repeat match goal with |- _ /\ _ => split end.

Ltac all_runs := unfold_prog; repeat (host_case; unfold_prog).

Ltac trace_tail :=
  rewrite <- ?app_assoc; cbn [app];
  first [ exists []; split; [now rewrite app_nil_r |]
        | eexists; split; [reflexivity |] ].

(** * Properties *)

(** ** Strings *)

Lemma prefix_app (p r : string) : String.prefix p (p ++ r) = true.
Proof.
  induction p as [|c p IH]; simpl.
  - destruct r; reflexivity.
  - destruct (ascii_dec c c) as [_|Hne]; [exact IH | contradiction].
Qed.

Lemma string_drop_app (p r : string) :
  string_drop (String.length p) (p ++ r) = r.
Proof. induction p as [|c p IH]; simpl; [reflexivity | exact IH]. Qed.

Lemma str_replace1_prefix (old new r : string) :
  str_replace1 old new (old ++ r) = new ++ r.
Proof.
  assert (Hunfold : forall s, str_replace1 old new s
            = if String.prefix old s
              then new ++ string_drop (String.length old) s
              else match s with
                   | EmptyString => EmptyString
                   | String c s' => String c (str_replace1 old new s')
                   end) by (intros []; reflexivity).
  rewrite Hunfold, prefix_app, string_drop_app. reflexivity.
Qed.

Lemma string_app_assoc (a b c : string) : (a ++ b) ++ c = a ++ (b ++ c).
Proof.
  induction a as [|x a IH]; [reflexivity |].
  change (String x ((a ++ b) ++ c) = String x (a ++ b ++ c)).
  now rewrite IH.
Qed.

Lemma nonempty_Some (t : string) : t <> "" -> nonempty (Some t) = Some t.
Proof.
  intros Hne. unfold nonempty.
  destruct (String.eqb_spec t ""); [contradiction | reflexivity].
Qed.

Lemma truthy_false (o : option string) : truthy o = false -> nonempty o = None.
Proof. unfold truthy. destruct (nonempty o); [discriminate | reflexivity]. Qed.

(** ** C3: the authenticated URL *)

(** C3.  With a non-empty token, [https://rest] becomes
    [https://token@rest] and [http://rest] becomes [http://token@rest]: the
    token and an [@] are inserted once, right after [://].  Without a token
    ([None] or the empty string), or when the URL starts with neither
    scheme, the URL is returned as it is. *)
Theorem get_authenticated_url_spec (url : string) (tok : option string) :
  (forall t rest, tok = Some t -> t <> "" ->
     (url = "https://" ++ rest ->
      get_authenticated_url (Some url) tok
      = Return (Some ("https://" ++ t ++ "@" ++ rest)))
     /\ (url = "http://" ++ rest ->
         get_authenticated_url (Some url) tok
         = Return (Some ("http://" ++ t ++ "@" ++ rest))))
  /\ (truthy tok = false ->
      get_authenticated_url (Some url) tok = Return (Some url))
  /\ (startswith url "https://" = false ->
      startswith url "http://" = false ->
      get_authenticated_url (Some url) tok = Return (Some url)).
Proof.
  split; [| split].
  - intros t rest -> Hne. unfold get_authenticated_url.
    rewrite (nonempty_Some t Hne). split; intros ->.
    + unfold startswith. rewrite prefix_app, str_replace1_prefix.
      now rewrite !string_app_assoc.
    + unfold startswith.
      replace (String.prefix "https://" ("http://" ++ rest)) with false
        by (simpl; reflexivity).
      rewrite prefix_app, str_replace1_prefix.
      now rewrite !string_app_assoc.
  - intros Hf. unfold get_authenticated_url.
    now rewrite (truthy_false _ Hf).
  - intros H1 H2. unfold get_authenticated_url.
    destruct (nonempty tok); [| reflexivity].
    now rewrite H1, H2.
Qed.

Lemma get_authenticated_url_spec_witness :
  get_authenticated_url (Some "https://github.com/user/repo.git")
                        (Some "s3cr3t")
  = Return (Some "https://s3cr3t@github.com/user/repo.git")
  /\ get_authenticated_url (Some "http://host/path") (Some "t")
     = Return (Some "http://t@host/path")
  /\ get_authenticated_url (Some "https://host/path") (Some "")
     = Return (Some "https://host/path")
  /\ get_authenticated_url (Some "git@host:user/repo.git") (Some "t")
     = Return (Some "git@host:user/repo.git").
Proof.
  split; [| split; [| split]].
  - exact (proj1 (proj1 (get_authenticated_url_spec
                           "https://github.com/user/repo.git" (Some "s3cr3t"))
                    "s3cr3t" "github.com/user/repo.git" eq_refl
                    ltac:(discriminate)) eq_refl).
  - exact (proj2 (proj1 (get_authenticated_url_spec
                           "http://host/path" (Some "t"))
                    "t" "host/path" eq_refl ltac:(discriminate)) eq_refl).
  - exact (proj1 (proj2 (get_authenticated_url_spec
                           "https://host/path" (Some ""))) eq_refl).
  - exact (proj2 (proj2 (get_authenticated_url_spec
                           "git@host:user/repo.git" (Some "t")))
             eq_refl eq_refl).
Defined.

(** ** C8, C7: the configuration store *)

Section ConfigStore.
Context {W : Type} `{Host W}.

Lemma get_repo_config_empty (repo_id : Z) :
  get_repo_config empty_config repo_id = Return None.
Proof. reflexivity. Qed.

(** C8.  Without a [config.json], [load_config] returns the store
    [{"repos": {}}], in which no identity has an entry; with a
    [config.json] holding a serialised store, it returns that store, which
    is what [save_config] left there. *)
Theorem load_config_spec (s : state W) :
  (config_file s = None ->
   load_config s = (Return empty_config, s)
   /\ config_repos empty_config = Return ∅
   /\ forall repo_id, get_repo_config empty_config repo_id = Return None)
  /\ (forall c, config_file s = Some (Json c) ->
      load_config s = (Return c, s))
  /\ (forall c, fst (load_config (snd (save_config c s))) = Return c).
Proof.
  unfold load_config. split; [| split].
  - intros ->. repeat split.
  - now intros c ->.
  - reflexivity.
Qed.

(** C7.  On a store that has its ["repos"] dictionary,
    [update_repo_config] returns with the updated store written to
    [config.json] and nothing else changed.  The identity has an entry
    afterwards; its ["url"] is the given URL when one is given (not [None],
    not empty) and the previous one otherwise; likewise for ["token"];
    every other field of the entry and every other identity is as
    before. *)
Theorem update_repo_config_spec (cfg : config) (rs : repos) (repo_id : Z)
        (url tok : option string) (s : state W) :
  cfg !! "repos" = Some rs ->
  exists (cfg' : config) (e' : entry),
    update_repo_config cfg repo_id url tok s
    = (Return cfg',
       mkState (world s) (Some (Json cfg')) (stdout s) (trace s) (process s))
    /\ get_repo_config cfg' repo_id = Return (Some e')
    /\ e' !! "url" = match nonempty url with
                     | Some u => Some u
                     | None => entry_before rs repo_id !! "url"
                     end
    /\ e' !! "token" = match nonempty tok with
                       | Some t => Some t
                       | None => entry_before rs repo_id !! "token"
                       end
    /\ (forall field, field <> "url" -> field <> "token" ->
        e' !! field = entry_before rs repo_id !! field)
    /\ (forall other, other <> repo_id ->
        get_repo_config cfg' other = get_repo_config cfg other).
Proof.
  intros Hrs.
  unfold update_repo_config, bind, lift, config_repos, save_config, ret.
  rewrite Hrs. cbn [world config_file stdout trace process].
  set (k := pretty repo_id).
  set (rs1 := match rs !! k with None => <[k:=∅]> rs | Some _ => rs end).
  assert (H1 : rs1 !! k = Some (entry_before rs repo_id)).
  { unfold rs1, entry_before. fold k.
    destruct (rs !! k) eqn:E; simpl; [exact E | apply lookup_insert_eq]. }
  assert (H1o : forall k', k' <> k -> rs1 !! k' = rs !! k').
  { intros k' Hk. unfold rs1. destruct (rs !! k); [reflexivity |].
    now apply lookup_insert_ne. }
  set (rs2 := match nonempty url with
              | Some u => set_field k "url" u rs1 | None => rs1 end).
  assert (H2 : exists e2, rs2 !! k = Some e2
            /\ e2 !! "url" = match nonempty url with
                             | Some u => Some u
                             | None => entry_before rs repo_id !! "url"
                             end
            /\ forall f, f <> "url" -> e2 !! f = entry_before rs repo_id !! f).
  { unfold rs2, set_field. destruct (nonempty url) as [u|].
    - rewrite H1. eexists. split; [apply lookup_insert_eq |].
      split; [apply lookup_insert_eq |].
      intros f Hf. now apply lookup_insert_ne.
    - eauto. }
  assert (H2o : forall k', k' <> k -> rs2 !! k' = rs !! k').
  { intros k' Hk. unfold rs2, set_field. destruct (nonempty url).
    - rewrite H1, lookup_insert_ne by congruence. now apply H1o.
    - now apply H1o. }
  destruct H2 as (e2 & He2 & Hurl & Hrest).
  set (rs3 := match nonempty tok with
              | Some t => set_field k "token" t rs2 | None => rs2 end).
  assert (H3 : exists e3, rs3 !! k = Some e3
            /\ e3 !! "token" = match nonempty tok with
                               | Some t => Some t
                               | None => e2 !! "token"
                               end
            /\ forall f, f <> "token" -> e3 !! f = e2 !! f).
  { unfold rs3, set_field. destruct (nonempty tok) as [t|].
    - rewrite He2. eexists. split; [apply lookup_insert_eq |].
      split; [apply lookup_insert_eq |].
      intros f Hf. now apply lookup_insert_ne.
    - eauto. }
  assert (H3o : forall k', k' <> k -> rs3 !! k' = rs !! k').
  { intros k' Hk. unfold rs3, set_field. destruct (nonempty tok).
    - rewrite He2, lookup_insert_ne by congruence. now apply H2o.
    - now apply H2o. }
  destruct H3 as (e3 & He3 & Htok & Hrest3).
  exists (<["repos" := rs3]> cfg), e3.
  split; [reflexivity |].
  unfold get_repo_config, config_repos.
  rewrite lookup_insert_eq. fold k. rewrite He3.
  split; [reflexivity |].
  split; [rewrite Hrest3 by discriminate; exact Hurl |].
  split.
  { rewrite Htok. destruct (nonempty tok); [reflexivity |].
    apply Hrest. discriminate. }
  split.
  { intros f Hu Ht. rewrite Hrest3 by exact Ht. now apply Hrest. }
  intros other Hne. rewrite Hrs, H3o; [reflexivity |].
  unfold k. intros Heq. apply Hne. now apply (inj pretty).
Qed.

End ConfigStore.

Lemma load_config_spec_witness :
  load_config (init (fresh_sim []) None)
  = (Return empty_config, init (fresh_sim []) None)
  /\ load_config (init (fresh_sim []) (stored "https://h/r.git"))
     = (Return {[ "repos" := {[ "7" := {[ "url" := "https://h/r.git" ]} ]} ]},
        init (fresh_sim []) (stored "https://h/r.git")).
Proof.
  split.
  - exact (proj1 (proj1 (load_config_spec (init (fresh_sim []) None)) eq_refl)).
  - exact (proj1 (proj2 (load_config_spec
                           (init (fresh_sim []) (stored "https://h/r.git"))))
             _ eq_refl).
Defined.

Lemma update_repo_config_spec_witness :
  exists (cfg' : config) (e' : entry),
    update_repo_config
      {[ "repos" := {[ "7" := {[ "url" := "https://h/r.git" ]} ]} ]}
      7 None (Some "s3cr3t") (init (fresh_sim []) None)
    = (Return cfg', mkState (fresh_sim []) (Some (Json cfg')) [] [] None)
    /\ get_repo_config cfg' 7 = Return (Some e')
    /\ e' !! "url" = Some "https://h/r.git"
    /\ e' !! "token" = Some "s3cr3t".
Proof.
  destruct (update_repo_config_spec
              {[ "repos" := {[ "7" := {[ "url" := "https://h/r.git" ]} ]} ]}
              {[ "7" := {[ "url" := "https://h/r.git" ]} ]}
              7 None (Some "s3cr3t") (init (fresh_sim []) None)
              (lookup_singleton_eq _ _))
    as (cfg' & e' & Hrun & Hget & Hurl & Htok & _).
  exists cfg', e'. repeat split; assumption.
Defined.

(** ** C9: a fresh clone counts as a change *)

Section FreshClone.
Context {W : Type} `{Host W}.

(** C9.  When [.git] does not exist under the local path and the clone
    returns, [clone_or_update_repo] returns [True] after exactly these two
    calls; and a turn of the loop in which this happens (after the sleep)
    goes on with the restart of the supervised process. *)
Theorem fresh_clone_changed (rc : entry) (dir : string) (dbg : bool)
        (auth : option string) (s : state W) (w1 w2 : W) :
  get_authenticated_url (rc !! "url") (rc !! "token") = Return auth ->
  os_path_exists (path_join dir ".git") (world s) = (Return false, w1) ->
  Repo_clone_from auth dir w1 = (Return tt, w2) ->
  fst (clone_or_update_repo rc dir dbg s) = Return true
  /\ world (snd (clone_or_update_repo rc dir dbg s)) = w2
  /\ trace (snd (clone_or_update_repo rc dir dbg s))
     = (trace s ++ [Event (CExists (path_join dir ".git"))
                          (Return (VBool false));
                    Event (CClone auth dir) (Return VNone)])%list
  /\ forall (a : args) (s0 : state W),
      debug a = dbg ->
      time_sleep (check_time a) (world s0) = (Return tt, world s) ->
      exists s2 : state W,
        poll a rc dir s0 = restart a dir s2
        /\ world s2 = w2
        /\ process s2 = process s0
        /\ trace s2
           = (trace s0 ++ [Event (CSleep (check_time a)) (Return VNone);
                           Event (CExists (path_join dir ".git"))
                                 (Return (VBool false));
                           Event (CClone auth dir) (Return VNone)])%list.
Proof.
  intros Hauth Hex Hclone.
  unfold clone_or_update_repo. rewrite Hauth.
  repeat split.
  - destruct dbg; run_prog; reflexivity.
  - destruct dbg; run_prog; reflexivity.
  - destruct dbg; run_prog; now rewrite <- app_assoc.
  - intros a s0 Hdbg Hsleep. unfold poll, clone_or_update_repo.
    rewrite Hauth, Hdbg.
    destruct dbg; run_prog.
    all: eexists; split; [reflexivity |]; cbn [world process trace].
    all: repeat split; now rewrite <- ?app_assoc.
Qed.
End FreshClone.

(** ** C2, C1: the synchronisation pass *)

Section Synchronise.
Context {W : Type} `{Host W}.

(** C2.  A failed git command is reported by GitPython as a
    [GitCommandError].  When the clone fails so, when the fetch fails so,
    or when [reset], [clean] or [pull] fails so after the heads were found
    to differ, [clone_or_update_repo] returns [False]: nothing is raised to
    the caller. *)
Theorem sync_failure_returns_false (rc : entry) (dir : string) (dbg : bool)
        (auth : option string) (s : state W) :
  get_authenticated_url (rc !! "url") (rc !! "token") = Return auth ->
  (forall msg w1 w2,
      os_path_exists (path_join dir ".git") (world s) = (Return false, w1) ->
      Repo_clone_from auth dir w1 = (Raise (GitCommandError msg), w2) ->
      fst (clone_or_update_repo rc dir dbg s) = Return false)
  /\ (forall msg w1 w2 w3 w4,
      os_path_exists (path_join dir ".git") (world s) = (Return true, w1) ->
      Repo_open dir w1 = (Return tt, w2) ->
      remotes_origin dir w2 = (Return tt, w3) ->
      origin_fetch dir w3 = (Raise (GitCommandError msg), w4) ->
      fst (clone_or_update_repo rc dir dbg s) = Return false)
  /\ (forall msg w1 w2 w3 w4 w5 w6 w7 b l r,
      os_path_exists (path_join dir ".git") (world s) = (Return true, w1) ->
      Repo_open dir w1 = (Return tt, w2) ->
      remotes_origin dir w2 = (Return tt, w3) ->
      origin_fetch dir w3 = (Return tt, w4) ->
      active_branch_name dir w4 = (Return b, w5) ->
      head_commit_hexsha dir w5 = (Return l, w6) ->
      origin_refs_hexsha dir b w6 = (Return r, w7) ->
      l <> r ->
      (exists w8, git_reset_hard dir w7 = (Raise (GitCommandError msg), w8))
      \/ (exists w8 w9,
             git_reset_hard dir w7 = (Return tt, w8)
             /\ git_clean_fd dir w8 = (Raise (GitCommandError msg), w9))
      \/ (exists w8 w9 w10,
             git_reset_hard dir w7 = (Return tt, w8)
             /\ git_clean_fd dir w8 = (Return tt, w9)
             /\ origin_pull dir w9 = (Raise (GitCommandError msg), w10)) ->
      fst (clone_or_update_repo rc dir dbg s) = Return false).
Proof.
  intros Hauth. unfold clone_or_update_repo. rewrite Hauth.
  split; [| split].
  - intros msg w1 w2 Hex Hclone. destruct dbg; run_prog; reflexivity.
  - intros msg w1 w2 w3 w4 Hex Hopen Horigin Hfetch.
    destruct dbg; run_prog; reflexivity.
  - intros msg w1 w2 w3 w4 w5 w6 w7 b l r
           Hex Hopen Horigin Hfetch Hbranch Hhead Href Hne Hfail.
    assert (Hneq : String.eqb l r = false) by now apply String.eqb_neq.
    destruct Hfail as [(w8 & Hreset)
                      | [(w8 & w9 & Hreset & Hclean)
                        | (w8 & w9 & w10 & Hreset & Hclean & Hpull)]];
      destruct dbg; run_prog; rewrite Hneq; run_prog; reflexivity.
Qed.

(** C1.  On a working copy with [.git], opened, fetched, with checked-out
    branch [b] and local head [l]: [clone_or_update_repo] returns [True]
    exactly when the remote-tracking commit of [b] resolves, differs from
    [l], and [reset], [clean] and [pull] all return.  It returns [False]
    when the remote commit equals [l], and when resolving it raises
    [IndexError] or [AttributeError]. *)
Theorem update_changed_iff (rc : entry) (dir : string) (dbg : bool)
        (auth : option string) (s : state W) (w1 w2 w3 w4 w5 w6 : W)
        (b l : string) :
  get_authenticated_url (rc !! "url") (rc !! "token") = Return auth ->
  os_path_exists (path_join dir ".git") (world s) = (Return true, w1) ->
  Repo_open dir w1 = (Return tt, w2) ->
  remotes_origin dir w2 = (Return tt, w3) ->
  origin_fetch dir w3 = (Return tt, w4) ->
  active_branch_name dir w4 = (Return b, w5) ->
  head_commit_hexsha dir w5 = (Return l, w6) ->
  (fst (clone_or_update_repo rc dir dbg s) = Return true
   <-> exists r w7 w8 w9 w10,
        origin_refs_hexsha dir b w6 = (Return r, w7)
        /\ l <> r
        /\ git_reset_hard dir w7 = (Return tt, w8)
        /\ git_clean_fd dir w8 = (Return tt, w9)
        /\ origin_pull dir w9 = (Return tt, w10))
  /\ (forall w7,
        origin_refs_hexsha dir b w6 = (Return l, w7) ->
        fst (clone_or_update_repo rc dir dbg s) = Return false)
  /\ (forall e w7,
        origin_refs_hexsha dir b w6 = (Raise e, w7) ->
        is_IndexError_or_AttributeError e = true ->
        fst (clone_or_update_repo rc dir dbg s) = Return false).
Proof.
  intros Hauth Hex Hopen Horigin Hfetch Hbranch Hhead.
  unfold clone_or_update_repo. rewrite Hauth.
  split; [| split].
  - destruct (origin_refs_hexsha dir b w6) as [[r|e] w7] eqn:Href.
    + destruct (String.eqb_spec l r) as [Heq|Hne].
      * split.
        -- destruct dbg; run_prog; rewrite ?Heq, String.eqb_refl; run_prog;
             discriminate.
        -- intros (r' & w7' & _ & _ & _ & Hr & Hne' & _).
           injection Hr as -> _. contradiction.
      * assert (Hneq : String.eqb l r = false) by now apply String.eqb_neq.
        destruct (git_reset_hard dir w7) as [[[]|e1] w8] eqn:Hreset;
          [destruct (git_clean_fd dir w8) as [[[]|e2] w9] eqn:Hclean;
           [destruct (origin_pull dir w9) as [[[]|e3] w10] eqn:Hpull |] |].
        -- split; [intros _; now exists r, w7, w8, w9, w10 |].
           intros _. destruct dbg; run_prog; rewrite Hneq; run_prog;
             reflexivity.
        -- split.
           ++ destruct dbg; run_prog; rewrite Hneq; run_prog;
                destruct e3; run_prog; discriminate.
           ++ intros (r' & w7' & w8' & w9' & w10' & Hr & _ & Hr1 & Hr2 & Hr3).
              injection Hr as <- <-. rewrite Hreset in Hr1.
              injection Hr1 as <-. rewrite Hclean in Hr2.
              injection Hr2 as <-. rewrite Hpull in Hr3. discriminate.
        -- split.
           ++ destruct dbg; run_prog; rewrite Hneq; run_prog;
                destruct e2; run_prog; discriminate.
           ++ intros (r' & w7' & w8' & w9' & w10' & Hr & _ & Hr1 & Hr2 & _).
              injection Hr as <- <-. rewrite Hreset in Hr1.
              injection Hr1 as <-. rewrite Hclean in Hr2. discriminate.
        -- split.
           ++ destruct dbg; run_prog; rewrite Hneq; run_prog;
                destruct e1; run_prog; discriminate.
           ++ intros (r' & w7' & w8' & w9' & w10' & Hr & _ & Hr1 & _).
              injection Hr as <- <-. rewrite Hreset in Hr1. discriminate.
    + split.
      * destruct dbg; run_prog; destruct e; run_prog; discriminate.
      * intros (r' & w7' & _ & _ & _ & Hr & _). discriminate.
  - intros w7 Href.
    destruct dbg; run_prog; rewrite String.eqb_refl; run_prog; reflexivity.
  - intros e w7 Href He.
    destruct dbg; run_prog; destruct e; try discriminate He; run_prog;
      reflexivity.
Qed.
End Synchronise.

Lemma fresh_clone_changed_witness :
  fst (clone_or_update_repo demo_entry "/srv/snt/repo" false
         (init (fresh_sim []) None)) = Return true.
Proof.
  refine (proj1 (fresh_clone_changed demo_entry "/srv/snt/repo" false
                   (Some "https://h/r.git") (init (fresh_sim []) None) _ _
                   _ _ _)).
  - vm_compute; reflexivity.
  - vm_compute; reflexivity.
  - vm_compute; reflexivity.
Defined.

Lemma sync_failure_returns_false_witness :
  fst (clone_or_update_repo demo_entry "/srv/snt/repo" false
         (init (fresh_sim [None; Some (GitCommandError "exit code(128)")])
               None)) = Return false.
Proof.
  refine (proj1 (sync_failure_returns_false demo_entry "/srv/snt/repo" false
                   (Some "https://h/r.git")
                   (init (fresh_sim [None; Some (GitCommandError "exit code(128)")])
                         None) _)
            "exit code(128)" _ _ _ _).
  - vm_compute; reflexivity.
  - vm_compute; reflexivity.
  - vm_compute; reflexivity.
Defined.

Lemma update_changed_iff_witness :
  fst (clone_or_update_repo demo_entry "/srv/snt/repo" false
         (init (cloned_sim "a" "b" [] []) None)) = Return true.
Proof.
  refine (proj2 (proj1 (update_changed_iff demo_entry "/srv/snt/repo" false
                          (Some "https://h/r.git")
                          (init (cloned_sim "a" "b" [] []) None)
                          _ _ _ _ _ _ "main" "a" _ _ _ _ _ _ _)) _).
  - vm_compute; reflexivity.
  - vm_compute; reflexivity.
  - vm_compute; reflexivity.
  - vm_compute; reflexivity.
  - vm_compute; reflexivity.
  - vm_compute; reflexivity.
  - vm_compute; reflexivity.
  - eexists "b", _, _, _, _.
    repeat split; try (vm_compute; reflexivity). discriminate.
Defined.

(** ** The runs of the program *)

Section Sound.
Context {W : Type} `{Host W}.

Lemma get_authenticated_url_raises (url tok : option string) (e : exn) :
  get_authenticated_url url tok = Raise e -> e = AttributeError.
Proof.
  unfold get_authenticated_url.
  destruct (nonempty tok); [| discriminate].
  destruct url as [u|]; [| now intros [= <-]].
  destruct (startswith u "https://"); [discriminate |].
  destruct (startswith u "http://"); discriminate.
Qed.

Lemma sync_sound (rc : entry) (dir : string) (dbg : bool)
      (s s' : state W) (r : outcome bool) :
  clone_or_update_repo rc dir dbg s = (r, s') ->
  process s' = process s
  /\ exists evs, trace s' = (trace s ++ evs)%list /\ sync_run r evs.
Proof.
  unfold clone_or_update_repo.
  destruct (get_authenticated_url (rc !! "url") (rc !! "token"))
    as [auth|e] eqn:Hauth.
  - destruct dbg; all_runs; intros [= <- <-];
      cbn [process trace]; (split; [reflexivity |]); trace_tail;
      (split; [reflexivity |]);
      first [ eexists _, _; split; reflexivity
            | right; eexists; reflexivity ].
  - apply get_authenticated_url_raises in Hauth as ->.
    unfold_prog. intros [= <- <-]. split; [reflexivity |].
    exists []. rewrite app_nil_r. split; [reflexivity |].
    split; [reflexivity | now left].
Qed.

Lemma bind_inv {A B} (m : prog W A) (k : A -> prog W B)
      (s s' : state W) (r : outcome B) :
  bind m k s = (r, s') ->
  (exists a s1, m s = (Return a, s1) /\ k a s1 = (r, s'))
  \/ (exists e, m s = (Raise e, s') /\ r = Raise e).
Proof.
  unfold bind. destruct (m s) as [[a|e] s1].
  - intros Hk. left. now exists a, s1.
  - intros [= <- <-]. right. now exists e.
Qed.

Lemma when_print_run (b : bool) (line : string) (s : state W) :
  exists s1, when b (print line) s = (Return tt, s1)
             /\ world s1 = world s /\ trace s1 = trace s
             /\ process s1 = process s /\ config_file s1 = config_file s.
Proof. destruct b; eexists; repeat split. Qed.

Lemma start_sound (dir f : string) (dbg : bool) (s s' : state W)
      (r : outcome handle) :
  run_start_file dir f dbg s = (r, s') ->
  process s' = process s
  /\ exists evs, trace s' = (trace s ++ evs)%list
                 /\ start_run (path_join dir f) r evs.
Proof.
  unfold run_start_file.
  destruct dbg; all_runs; intros [= <- <-];
    cbn [process trace]; (split; [reflexivity |]); trace_tail;
    constructor.
Qed.

Lemma restart_sound (a : args) (dir : string) (p : handle)
      (s s' : state W) (r : outcome unit) :
  process s = Some p ->
  restart a dir s = (r, s') ->
  exists evs p',
    trace s' = (trace s ++ evs)%list
    /\ process s' = Some p'
    /\ restart_run (path_join dir (start_file a)) p r evs p'.
Proof.
  intros Hp. unfold restart, run_start_file.
  destruct (debug a); unfold_prog; rewrite Hp; all_runs;
    intros [= <- <-]; cbn [process trace];
    rewrite <- ?app_assoc; cbn [app];
    eexists _, _; (split; [reflexivity |]);
    (split; [first [exact Hp | reflexivity] |]);
    repeat constructor.
Qed.

Lemma poll_sound (a : args) (rc : entry) (dir : string) (p : handle)
      (s s' : state W) (r : outcome unit) :
  process s = Some p ->
  poll a rc dir s = (r, s') ->
  exists evs p',
    trace s' = (trace s ++ evs)%list
    /\ process s' = Some p'
    /\ poll_run (check_time a) (path_join dir (start_file a)) p r evs p'.
Proof.
  intros Hp. unfold poll. intros Hrun.
  apply bind_inv in Hrun as [(u & s1 & Hsleep & Hrun) | (e & Hsleep & ->)].
  - revert Hsleep. unfold sleep, prim.
    destruct (time_sleep (check_time a) (world s)) as [rs w1].
    intros [= -> <-].
    apply bind_inv in Hrun as [(u1 & s2 & Hprint & Hrun) | (e & Hprint & _)].
    2: { destruct (when_print_run (debug a) "[DEBUG] Checking for updates..."
                     (mkState w1 (config_file s) (stdout s)
                        (trace s ++ [Event (CSleep (check_time a))
                                           (Return VNone)])
                        (process s))) as (sx & Hx & _).
         rewrite Hx in Hprint. discriminate. }
    destruct (when_print_run (debug a) "[DEBUG] Checking for updates..."
                (mkState w1 (config_file s) (stdout s)
                   (trace s ++ [Event (CSleep (check_time a))
                                      (Return VNone)])
                   (process s))) as (sx & Hx & _ & Htr & Hpr & _).
    rewrite Hx in Hprint. injection Hprint as _ <-.
    cbn [trace process] in Htr, Hpr.
    apply bind_inv in Hrun as [(b & s3 & Hsync & Hrun) | (e & Hsync & ->)].
    + apply sync_sound in Hsync as (Hp3 & evs & Ht3 & Hsr).
      destruct b.
      * apply restart_sound with (p := p) in Hrun as (evs' & p' & Ht & Hp' & Hrr);
          [| congruence].
        exists (Event (CSleep (check_time a)) (Return VNone) :: evs ++ evs'), p'.
        split; [| split; [exact Hp' | now apply poll_restarted]].
        rewrite Ht, Ht3, Htr, <- !app_assoc. reflexivity.
      * injection Hrun as <- <-.
        exists (Event (CSleep (check_time a)) (Return VNone) :: evs), p.
        split; [| split; [congruence | now apply poll_unchanged]].
        rewrite Ht3, Htr, <- !app_assoc. reflexivity.
    + apply sync_sound in Hsync as (Hp3 & evs & Ht3 & Hsr).
      exists (Event (CSleep (check_time a)) (Return VNone) :: evs), p.
      split; [| split; [congruence | now apply poll_sync_raised]].
      rewrite Ht3, Htr, <- !app_assoc. reflexivity.
  - revert Hsleep. unfold sleep, prim.
    destruct (time_sleep (check_time a) (world s)) as [rs w1].
    intros [= -> <-]. cbn [trace process].
    exists [Event (CSleep (check_time a)) (Raise e)], p.
    split; [reflexivity | split; [exact Hp | constructor]].
Qed.

Lemma loop_sound (a : args) (rc : entry) (dir : string) (fuel : nat) :
  forall (p : handle) (s s' : state W) (r : outcome unit),
    process s = Some p ->
    while_true fuel (poll a rc dir) s = (r, s') ->
    exists evs p',
      trace s' = (trace s ++ evs)%list
      /\ process s' = Some p'
      /\ loop_run (check_time a) (path_join dir (start_file a)) p r evs p'.
Proof.
  induction fuel as [|n IH]; intros p s s' r Hp; cbn [while_true].
  - intros [= <- <-]. exists [], p. rewrite app_nil_r.
    repeat split; [exact Hp | constructor].
  - intros Hrun.
    apply bind_inv in Hrun as [(u & s1 & Hpoll & Hrun) | (e & Hpoll & ->)].
    + apply poll_sound with (p := p) in Hpoll as (evs & p' & Ht & Hp' & Hpr);
        [| exact Hp].
      destruct u.
      apply IH with (p := p') in Hrun as (evs' & p'' & Ht' & Hp'' & Hlr);
        [| exact Hp'].
      exists (evs ++ evs')%list, p''.
      split; [| split; [exact Hp'' | now apply loop_again with p']].
      now rewrite Ht', Ht, <- app_assoc.
    + apply poll_sound with (p := p) in Hpoll as (evs & p' & Ht & Hp' & Hpr);
        [| exact Hp].
      exists evs, p'. repeat split; [exact Ht | exact Hp' |].
      now apply loop_raised.
Qed.
End Sound.

(** ** Traces of supervised processes *)

Lemma snoc_split {A} (pre post t : list A) (e : A) :
  (t ++ [e] = pre ++ post)%list ->
  (post = [] /\ pre = (t ++ [e])%list)
  \/ exists post', post = (post' ++ [e])%list /\ t = (pre ++ post')%list.
Proof.
  intros Heq. destruct post as [|x post] using rev_ind.
  - left. rewrite app_nil_r in Heq. now split.
  - right. clear IHpost. rewrite app_assoc in Heq.
    apply app_inj_tail in Heq as [-> ->]. now exists post.
Qed.

Lemma live_app (t evs : list event) :
  live (t ++ evs) = fold_left live_after evs (live t).
Proof. unfold live. apply fold_left_app. Qed.

Lemma last_started_app (t evs : list event) :
  last_started (t ++ evs)
  = fold_left (fun o e => match started e with Some h => Some h | None => o end)
              evs (last_started t).
Proof. unfold last_started. apply fold_left_app. Qed.

Lemma quiet_inert (e : event) :
  quiet e = true -> started e = None /\ reaped e = None.
Proof. destruct e as [[] [[]|]]; cbn; intros; try discriminate; now split. Qed.

Lemma remove_handle_length (h : handle) (l : list handle) :
  length (remove_handle h l) <= length l.
Proof.
  induction l as [|x l IH]; cbn; [lia |].
  destruct (Nat.eqb x h); cbn; lia.
Qed.

Lemma live_after_nostart (l : list handle) (e : event) :
  started e = None -> length (live_after l e) <= length l.
Proof.
  intros Hs. unfold live_after. rewrite Hs.
  destruct (reaped e); [apply remove_handle_length | lia].
Qed.

Lemma live_app_quiet (t evs : list event) :
  forallb quiet evs = true -> live (t ++ evs) = live t.
Proof.
  intros Hq. rewrite live_app. generalize (live t). revert Hq.
  induction evs as [|e evs IH]; intros Hq l; [reflexivity |].
  cbn in Hq. apply andb_true_iff in Hq as [He Hq].
  apply quiet_inert in He as [Hs Hr].
  cbn [fold_left]. unfold live_after at 2. rewrite Hs, Hr. now apply IH.
Qed.

Lemma last_started_app_nostart (t evs : list event) :
  Forall (fun e => started e = None) evs ->
  last_started (t ++ evs) = last_started t.
Proof.
  intros Hevs. rewrite last_started_app. generalize (last_started t).
  induction Hevs as [|e evs He _ IH]; intros o; [reflexivity |].
  cbn [fold_left]. rewrite He. apply IH.
Qed.

Lemma quiet_nostart (evs : list event) :
  forallb quiet evs = true -> Forall (fun e => started e = None) evs.
Proof.
  induction evs as [|e evs IH]; cbn; intros Hq; constructor.
  - apply andb_true_iff in Hq as [He _]. now apply quiet_inert in He.
  - apply IH. now apply andb_true_iff in Hq.
Qed.

Lemma well_sequenced_nil : well_sequenced [].
Proof.
  split.
  - intros pre post Heq. symmetry in Heq.
    apply app_eq_nil in Heq as [-> _]. cbn. lia.
  - intros pre argv h post Heq. symmetry in Heq.
    apply app_eq_nil in Heq as [_ Habs]. discriminate.
Qed.

Lemma well_sequenced_snoc (t : list event) (e : event) :
  well_sequenced t ->
  started e = None ->
  well_sequenced (t ++ [e]).
Proof.
  intros [Hone Hord] Hs. split.
  - intros pre post Heq.
    apply snoc_split in Heq as [[_ ->] | (post' & _ & ->)].
    + rewrite live_app. cbn [fold_left].
      etransitivity; [apply live_after_nostart, Hs |].
      apply (Hone t []). now rewrite app_nil_r.
    + now apply (Hone pre post').
  - intros pre argv h post Heq.
    apply snoc_split in Heq as [[Habs _] | (post' & Hpost & ->)];
      [discriminate |].
    destruct post' as [|x post'].
    + cbn in Hpost. injection Hpost as <-. discriminate.
    + injection Hpost as <- _. eapply Hord. reflexivity.
Qed.

Lemma well_sequenced_app (t evs : list event) :
  well_sequenced t ->
  Forall (fun e => started e = None) evs ->
  well_sequenced (t ++ evs).
Proof.
  intros Ht Hevs. revert t Ht.
  induction Hevs as [|e evs He _ IH]; intros t Ht.
  - now rewrite app_nil_r.
  - change (e :: evs) with ([e] ++ evs)%list. rewrite app_assoc.
    apply IH. now apply well_sequenced_snoc.
Qed.

Lemma well_sequenced_start (t : list event) (argv : list string) (h : handle) :
  well_sequenced t ->
  live t = [] ->
  last_started t = None \/ stopped_before t ->
  well_sequenced (t ++ [Event (CPopen argv) (Return (VHandle h))]).
Proof.
  intros [Hone Hord] Hlive Hprev. split.
  - intros pre post Heq.
    apply snoc_split in Heq as [[_ ->] | (post' & _ & ->)].
    + rewrite live_app, Hlive. cbn. lia.
    + now apply (Hone pre post').
  - intros pre argv' h' post Heq.
    apply snoc_split in Heq as [[Habs _] | (post' & Hpost & ->)];
      [discriminate |].
    destruct post' as [|x post'].
    + rewrite app_nil_r in Hlive, Hprev. now split.
    + injection Hpost as <- _. eapply Hord. reflexivity.
Qed.

Lemma start_run_raised (path : string) (e : exn) (evs : list event) :
  start_run path (Raise e) evs ->
  Forall (fun ev => started ev = None) evs
  /\ forallb (fun ev => match reaped ev with Some _ => false | None => true end)
             evs = true.
Proof. inversion 1; subst; split; repeat constructor. Qed.

Lemma restart_run_sequenced (path : string) (p p' : handle)
      (r : outcome unit) (evs : list event) :
  restart_run path p r evs p' ->
  forall t,
    well_sequenced t -> live t = [p] -> last_started t = Some p ->
    well_sequenced (t ++ evs)
    /\ last_started (t ++ evs) = Some p'
    /\ (r = Return tt -> live (t ++ evs) = [p']).
Proof.
  intros Hrun t Hws Hlive Hlast.
  destruct Hrun as [e | e | rc e evs Hstart | rc p' evs Hstart].
  - split; [apply well_sequenced_app; [exact Hws | repeat constructor] |].
    split; [| discriminate].
    rewrite last_started_app_nostart; [exact Hlast | repeat constructor].
  - split; [apply well_sequenced_app; [exact Hws | repeat constructor] |].
    split; [| discriminate].
    rewrite last_started_app_nostart; [exact Hlast | repeat constructor].
  - apply start_run_raised in Hstart as [Hns _].
    assert (Hall : Forall (fun ev => started ev = None)
                     (Event (CTerminate p) (Return VNone)
                        :: Event (CWait p) (Return (VInt rc)) :: evs))
      by (repeat constructor; exact Hns).
    split; [now apply well_sequenced_app |].
    split; [| discriminate].
    now rewrite last_started_app_nostart.
  - inversion Hstart as [| | | argv h Hr Hevs]; subst.
    set (t' := (t ++ [Event (CTerminate p) (Return VNone);
                      Event (CWait p) (Return (VInt rc));
                      Event (CExists path) (Return (VBool true))])%list).
    assert (Heq : (t ++ Event (CTerminate p) (Return VNone)
                     :: Event (CWait p) (Return (VInt rc))
                     :: [Event (CExists path) (Return (VBool true));
                         Event (CPopen argv) (Return (VHandle p'))])%list
                  = (t' ++ [Event (CPopen argv) (Return (VHandle p'))])%list)
      by (unfold t'; now rewrite <- app_assoc).
    rewrite Heq.
    assert (Hws' : well_sequenced t')
      by (apply well_sequenced_app; [exact Hws | repeat constructor]).
    assert (Hlive' : live t' = []).
    { unfold t'. rewrite live_app, Hlive. cbn.
      unfold live_after. cbn. now rewrite Nat.eqb_refl. }
    assert (Hstop : stopped_before t').
    { exists t, p, rc, [Event (CExists path) (Return (VBool true))].
      repeat split. exact Hlive. }
    split; [apply well_sequenced_start; auto |].
    split.
    + rewrite last_started_app. reflexivity.
    + intros _. rewrite live_app, Hlive'. reflexivity.
Qed.

Lemma poll_run_sequenced (secs : Z) (path : string) (p p' : handle)
      (r : outcome unit) (evs : list event) :
  poll_run secs path p r evs p' ->
  forall t,
    well_sequenced t -> live t = [p] -> last_started t = Some p ->
    well_sequenced (t ++ evs)
    /\ last_started (t ++ evs) = Some p'
    /\ (r = Return tt -> live (t ++ evs) = [p']).
Proof.
  intros Hrun t Hws Hlive Hlast.
  assert (Hquiet : forall r0 evs0,
             sync_run r0 evs0 ->
             forallb quiet (Event (CSleep secs) (Return VNone) :: evs0) = true)
    by (intros r0 evs0 [Hq _]; exact Hq).
  destruct Hrun as [e | e evs Hsync | evs Hsync | evs r evs' p' Hsync Hrestart].
  - split; [apply well_sequenced_app; [exact Hws | repeat constructor] |].
    split; [| discriminate].
    rewrite last_started_app_nostart; [exact Hlast | repeat constructor].
  - apply Hquiet in Hsync.
    split; [apply well_sequenced_app; [exact Hws | now apply quiet_nostart] |].
    split; [| discriminate].
    rewrite last_started_app_nostart; [exact Hlast | now apply quiet_nostart].
  - apply Hquiet in Hsync.
    split; [apply well_sequenced_app; [exact Hws | now apply quiet_nostart] |].
    split; [| intros _; now rewrite live_app_quiet].
    rewrite last_started_app_nostart; [exact Hlast | now apply quiet_nostart].
  - apply Hquiet in Hsync.
    change (Event (CSleep secs) (Return VNone) :: evs ++ evs')%list
      with ((Event (CSleep secs) (Return VNone) :: evs) ++ evs')%list.
    rewrite app_assoc.
    apply (restart_run_sequenced _ _ _ _ _ Hrestart).
    + apply well_sequenced_app; [exact Hws | now apply quiet_nostart].
    + now rewrite live_app_quiet.
    + rewrite last_started_app_nostart; [exact Hlast | now apply quiet_nostart].
Qed.

Lemma loop_run_sequenced (secs : Z) (path : string) (p p' : handle)
      (r : outcome unit) (evs : list event) :
  loop_run secs path p r evs p' ->
  forall t,
    well_sequenced t -> live t = [p] -> last_started t = Some p ->
    well_sequenced (t ++ evs) /\ last_started (t ++ evs) = Some p'.
Proof.
  induction 1 as [p | p e evs p' Hpoll | p evs p' r evs' p'' Hpoll _ IH];
    intros t Hws Hlive Hlast.
  - now rewrite app_nil_r.
  - destruct (poll_run_sequenced _ _ _ _ _ _ Hpoll t Hws Hlive Hlast)
      as (H1 & H2 & _). now split.
  - destruct (poll_run_sequenced _ _ _ _ _ _ Hpoll t Hws Hlive Hlast)
      as (H1 & H2 & H3).
    rewrite app_assoc. apply IH; auto.
Qed.

(** ** The runs of [main] *)

Section MainSound.
Context {W : Type} `{Host W}.

Lemma bind_when_print {B} (b : bool) (line : string)
      (k : unit -> prog W B) (s : state W) :
  exists s1,
    bind (when b (print line)) k s = k tt s1
    /\ trace s1 = trace s /\ world s1 = world s
    /\ process s1 = process s /\ config_file s1 = config_file s.
Proof. destruct b; eexists; conjs; reflexivity. Qed.

Lemma load_config_run (s s' : state W) (r : outcome config) :
  load_config s = (r, s') ->
  s' = s /\ forall code, r <> Raise (SystemExit code).
Proof.
  unfold load_config. destruct (config_file s) as [[c|]|];
    intros [= <- <-]; (split; [reflexivity | discriminate]).
Qed.

Lemma update_repo_config_run (cfg : config) (repo_id : Z)
      (url tok : option string) (s s' : state W) (r : outcome config) :
  update_repo_config cfg repo_id url tok s = (r, s') ->
  trace s' = trace s /\ world s' = world s /\ process s' = process s
  /\ forall code, r <> Raise (SystemExit code).
Proof.
  unfold update_repo_config, config_repos, save_config.
  destruct (cfg !! "repos"); unfold_prog; intros [= <- <-];
    conjs; try reflexivity; discriminate.
Qed.

Lemma get_repo_config_raises (cfg : config) (repo_id : Z) (e : exn) :
  get_repo_config cfg repo_id = Raise e -> e = KeyError "repos".
Proof.
  unfold get_repo_config, config_repos.
  destruct (cfg !! "repos"); [discriminate | now intros [= <-]].
Qed.

Lemma resolve_run (a : args) (cfg : config) (s s' : state W)
      (r : outcome (option entry)) :
  resolve_repo_config a cfg s = (r, s') ->
  trace s' = trace s /\ world s' = world s /\ process s' = process s
  /\ (forall code, r = Raise (SystemExit code) ->
      code = 1%Z
      /\ get_repo_config cfg (repo a) = Return None
      /\ truthy (repo_url a) = false)
  /\ (get_repo_config cfg (repo a) = Return None ->
      truthy (repo_url a) = false ->
      r = Raise (SystemExit 1)).
Proof.
  unfold resolve_repo_config.
  destruct (get_repo_config cfg (repo a)) as [[rc|]|e] eqn:Hget.
  - destruct (truthy (token a)).
    + unfold bind at 1. unfold lift at 1. intros Hrun.
      apply bind_inv in Hrun as [(cfg' & s1 & Hup & Hrun) | (e & Hup & ->)].
      * apply update_repo_config_run in Hup as (Ht & Hw & Hp & _).
        revert Hrun. unfold lift.
        destruct (get_repo_config cfg' (repo a)) as [o|e] eqn:Hget';
          intros [= <- <-]; conjs; try assumption; try discriminate.
        intros code [= ->]. apply get_repo_config_raises in Hget'.
        discriminate.
      * apply update_repo_config_run in Hup as (Ht & Hw & Hp & Hne).
        conjs; try assumption; try discriminate.
        intros code [= ->]. now destruct (Hne code).
    + unfold_prog. intros [= <- <-]. conjs; try reflexivity; discriminate.
  - destruct (truthy (repo_url a)).
    + unfold bind at 1. unfold lift at 1. intros Hrun.
      destruct (bind_when_print (debug a)
                  ("[DEBUG] Repository with number " ++ pretty (repo a)
                     ++ " not found. Creating a new entry.")
                  (fun _ => bind (update_repo_config cfg (repo a)
                                    (repo_url a) (token a))
                              (fun cfg' => lift (get_repo_config cfg' (repo a))))
                  s) as (s0 & Hk & Ht0 & Hw0 & Hp0 & _).
      rewrite Hk in Hrun.
      apply bind_inv in Hrun as [(cfg' & s1 & Hup & Hrun) | (e & Hup & ->)].
      * apply update_repo_config_run in Hup as (Ht & Hw & Hp & _).
        revert Hrun. unfold lift.
        destruct (get_repo_config cfg' (repo a)) as [o|e] eqn:Hget';
          intros [= <- <-]; conjs; try congruence.
        intros code [= ->]. apply get_repo_config_raises in Hget'.
        discriminate.
      * apply update_repo_config_run in Hup as (Ht & Hw & Hp & Hne).
        conjs; try congruence.
        intros code [= ->]. now destruct (Hne code).
    + unfold_prog. intros [= <- <-]. conjs; try reflexivity.
      intros code [= <-]. now conjs.
  - unfold_prog. intros [= <- <-]. conjs; try reflexivity; try discriminate.
    intros code [= ->]. apply get_repo_config_raises in Hget. discriminate.
Qed.

Lemma startup_sound (a : args) (s s' : state W) (r : outcome entry) :
  startup a s = (r, s') ->
  exists evs ro,
    trace s' = (trace s ++ evs)%list
    /\ startup_run (unknown_without_url a s) (entry_path a) ro evs
    /\ match r with
       | Return _ => exists p, ro = Return p /\ process s' = Some p
       | Raise e => ro = Raise e
       end.
Proof.
  unfold startup. intros Hrun.
  apply bind_inv in Hrun as [(cfg & s1 & Hload & Hrun) | (e & Hload & ->)].
  2: { pose proof Hload as Hload'.
       apply load_config_run in Hload' as [-> Hne].
       exists [], (Raise e). rewrite app_nil_r. conjs; try reflexivity.
       constructor.
       - intros code ->. now destruct (Hne code).
       - intros (cfg' & Hload' & _). rewrite Hload in Hload'.
         discriminate. }
  pose proof Hload as Hload'.
  apply load_config_run in Hload' as [-> _].
  apply bind_inv in Hrun as [(o & s2 & Hres & Hrun) | (e & Hres & ->)].
  2: { apply resolve_run in Hres as (Ht & _ & _ & Hexit & Hunk).
       exists [], (Raise e). rewrite app_nil_r. conjs; try assumption;
         try reflexivity.
       constructor.
       - intros code ->.
         destruct (Hexit code eq_refl) as (-> & Hget & Hurl).
         split; [reflexivity |]. now exists cfg.
       - intros (cfg' & Hload' & Hget & Hurl).
         rewrite Hload in Hload'. injection Hload' as <-.
         specialize (Hunk Hget Hurl). now injection Hunk as ->. }
  apply resolve_run in Hres as (Ht2 & _ & _ & _ & Hunk).
  assert (Hknown : ~ unknown_without_url a s).
  { intros (cfg' & Hload' & Hget & Hurl).
    rewrite Hload in Hload'. injection Hload' as <-.
    specialize (Hunk Hget Hurl). discriminate. }
  apply bind_inv in Hrun as [(rc & s3 & Hrc & Hrun) | (e & Hrc & ->)].
  2: { destruct o; [discriminate |]. injection Hrc as <- <-.
       exists [], (Raise AttributeError). rewrite app_nil_r.
       conjs; try assumption; try reflexivity.
       constructor; [discriminate | intros Hu; now destruct Hknown]. }
  assert (Ht3 : trace s3 = trace s)
    by (destruct o; [injection Hrc as _ <- | discriminate]; exact Ht2).
  clear Hrc Ht2 Hunk Hload.
  destruct (bind_when_print (debug a)
              "[DEBUG] Checking and downloading repository..."
              (fun _ =>
                 bind (clone_or_update_repo rc local_repo_dir (debug a))
                   (fun _ =>
                      bind (when (debug a)
                              (print "[DEBUG] Running start file."))
                        (fun _ =>
                           bind (run_start_file local_repo_dir (start_file a)
                                   (debug a))
                             (fun p => bind (set_process p)
                                         (fun _ => ret rc)))))
              s3) as (s4 & Hk & Ht4 & _).
  rewrite Hk in Hrun. clear Hk.
  apply bind_inv in Hrun as [(b & s5 & Hsync & Hrun) | (e & Hsync & ->)].
  2: { apply sync_sound in Hsync as (_ & evs & Ht & Hsr).
       exists evs, (Raise e). conjs; try reflexivity; [congruence |].
       now apply startup_sync_raised. }
  apply sync_sound in Hsync as (_ & evs & Ht5 & Hsr).
  destruct (bind_when_print (debug a) "[DEBUG] Running start file."
              (fun _ =>
                 bind (run_start_file local_repo_dir (start_file a) (debug a))
                   (fun p => bind (set_process p) (fun _ => ret rc)))
              s5) as (s6 & Hk & Ht6 & _).
  rewrite Hk in Hrun. clear Hk.
  apply bind_inv in Hrun as [(p & s7 & Hstart & Hrun) | (e & Hstart & ->)].
  - apply start_sound in Hstart as (_ & evs' & Ht7 & Hst).
    injection Hrun as <- <-. cbn [trace process].
    exists (evs ++ evs')%list, (Return p). conjs.
    + rewrite Ht7, Ht6, Ht5, Ht4, Ht3. now rewrite app_assoc.
    + eapply startup_started; eassumption.
    + now exists p.
  - apply start_sound in Hstart as (_ & evs' & Ht7 & Hst).
    exists (evs ++ evs')%list, (Raise e). conjs; try reflexivity.
    + rewrite Ht7, Ht6, Ht5, Ht4, Ht3. now rewrite app_assoc.
    + eapply startup_started; eassumption.
Qed.

Lemma stop_sound (a : args) (p : handle) (e : exn) (h : prog W main_result)
      (s s' : state W) (r : outcome main_result) :
  process s = Some p ->
  on_interrupt a e = Some h ->
  h s = (r, s') ->
  e = KeyboardInterrupt
  /\ exists evs, trace s' = (trace s ++ evs)%list /\ stop_run p r evs.
Proof.
  intros Hp. unfold on_interrupt.
  destruct e; cbn [is_KeyboardInterrupt]; try discriminate.
  intros [= <-]. split; [reflexivity |]. revert H0.
  destruct (debug a); unfold_prog; rewrite Hp; all_runs;
    intros [= <- <-]; cbn [trace]; trace_tail; constructor.
Qed.

Lemma on_interrupt_none (a : args) (e : exn) :
  on_interrupt (W := W) a e = None -> is_KeyboardInterrupt e = false.
Proof.
  unfold on_interrupt. destruct (is_KeyboardInterrupt e);
    [discriminate | reflexivity].
Qed.

Lemma supervise_sound (fuel : nat) (a : args) (rc : entry) (p : handle)
      (s s' : state W) (r : outcome main_result) :
  process s = Some p ->
  supervise fuel a rc s = (r, s') ->
  exists evs,
    trace s' = (trace s ++ evs)%list
    /\ supervise_run (check_time a) (entry_path a) p r evs.
Proof.
  intros Hp. unfold supervise, try_except, bind at 1.
  destruct (while_true fuel (poll a rc local_repo_dir) s) as [rl s1] eqn:Hloop.
  apply loop_sound with (p := p) in Hloop as (evs & p' & Ht & Hp' & Hlr);
    [| exact Hp].
  destruct rl as [[]|e].
  - unfold ret. intros [= <- <-]. exists evs. split; [exact Ht |].
    now apply supervise_running with p'.
  - destruct (on_interrupt a e) as [h|] eqn:Hh.
    + intros Hrun.
      destruct (stop_sound a p' e h s1 s' r Hp' Hh Hrun)
        as (-> & evs' & Ht' & Hstop).
      exists (evs ++ evs')%list. split.
      * now rewrite Ht', Ht, app_assoc.
      * now apply supervise_interrupted with p'.
    + intros [= <- <-]. exists evs. split; [exact Ht |].
      apply supervise_raised with p'; [exact Hlr |].
      exact (on_interrupt_none a e Hh).
Qed.

Lemma main_sound (fuel : nat) (a : args) (s s' : state W)
      (r : outcome main_result) :
  command a = Some "start" ->
  main fuel a s = (r, s') ->
  exists evs,
    trace s' = (trace s ++ evs)%list
    /\ main_run (unknown_without_url a s) (check_time a) (entry_path a)
                r evs.
Proof.
  intros Hcmd. unfold main. rewrite Hcmd. intros Hrun.
  apply bind_inv in Hrun as [(rc & s1 & Hstart & Hrun) | (e & Hstart & ->)].
  - apply startup_sound in Hstart as (evs & ro & Ht & Hsr & p & -> & Hp).
    apply supervise_sound with (p := p) in Hrun as (evs' & Ht' & Hsup);
      [| exact Hp].
    exists (evs ++ evs')%list. split.
    + now rewrite Ht', Ht, app_assoc.
    + now apply main_supervised with p.
  - apply startup_sound in Hstart as (evs & ro & Ht & Hsr & ->).
    exists evs. split; [exact Ht |]. now apply main_startup_raised.
Qed.

Lemma main_help (fuel : nat) (a : args) (s : state W) :
  command a <> Some "start" ->
  fst (main fuel a s) = Return HelpShown
  /\ trace (snd (main fuel a s)) = trace s.
Proof.
  intros Hcmd. unfold main.
  destruct (command a) as [c|]; [| now split].
  destruct (String.eqb_spec c "start") as [-> | Hne]; [contradiction |].
  assert (Hother : forall X (x y : X),
             match c with "start" => x | _ => y end = y).
  { intros X x y.
    repeat (match goal with
            | |- context [match ?c with EmptyString => _ | String _ _ => _ end] =>
                destruct c as [|? ?]; try reflexivity
            | |- context [match ?ch with Ascii _ _ _ _ _ _ _ _ => _ end] =>
                destruct ch as [[] [] [] [] [] [] [] []]; try reflexivity
            end); contradiction. }
  rewrite Hother. now split.
Qed.
End MainSound.

(** ** C4: a restart stops the old process before it starts the new one *)

Lemma startup_run_sequenced (unknown : Prop) (path : string)
      (r : outcome handle) (evs : list event) :
  startup_run unknown path r evs ->
  well_sequenced evs
  /\ forall p, r = Return p -> live evs = [p] /\ last_started evs = Some p.
Proof.
  assert (Hq : forall q, forallb quiet q = true ->
                         well_sequenced q /\ live q = []
                         /\ last_started q = None).
  { intros q Hq. split; [| split].
    - apply (well_sequenced_app [] q well_sequenced_nil).
      now apply quiet_nostart.
    - now apply (live_app_quiet [] q).
    - apply (last_started_app_nostart [] q). now apply quiet_nostart. }
  destruct 1 as [e _ _ | e evs _ [Hquiet _] | b r evs evs' _ [Hquiet _] Hstart].
  - split; [apply well_sequenced_nil | discriminate].
  - split; [now apply Hq | discriminate].
  - destruct (Hq evs Hquiet) as (Hws & Hlive & Hlast).
    destruct r as [p|e].
    + inversion Hstart as [| | | argv h Hr Hevs]; subst.
      set (t := (evs ++ [Event (CExists path) (Return (VBool true))])%list).
      assert (Heq : (evs ++ [Event (CExists path) (Return (VBool true));
                             Event (CPopen argv) (Return (VHandle p))])%list
                    = (t ++ [Event (CPopen argv) (Return (VHandle p))])%list)
        by (unfold t; now rewrite <- app_assoc).
      rewrite Heq.
      assert (Hws' : well_sequenced t)
        by (apply well_sequenced_app; [exact Hws | repeat constructor]).
      assert (Hlive' : live t = [])
        by (unfold t; rewrite live_app_quiet; [exact Hlive | reflexivity]).
      assert (Hlast' : last_started t = None).
      { unfold t. rewrite last_started_app_nostart; [exact Hlast |].
        repeat constructor. }
      split; [apply well_sequenced_start; auto |].
      intros p0 [= <-]. split.
      * rewrite live_app, Hlive'. reflexivity.
      * rewrite last_started_app. reflexivity.
    + apply start_run_raised in Hstart as [Hns _].
      split; [now apply well_sequenced_app | discriminate].
Qed.

Lemma stop_run_nostart (p : handle) (r : outcome main_result)
      (evs : list event) :
  stop_run p r evs -> Forall (fun e => started e = None) evs.
Proof. destruct 1; repeat constructor. Qed.

Lemma supervise_run_sequenced (secs : Z) (path : string) (p : handle)
      (r : outcome main_result) (evs : list event) :
  supervise_run secs path p r evs ->
  forall t,
    well_sequenced t -> live t = [p] -> last_started t = Some p ->
    well_sequenced (t ++ evs).
Proof.
  destruct 1 as [evs p' Hloop | e evs p' Hloop _ | evs p' r evs' Hloop Hstop];
    intros t Hws Hlive Hlast.
  - now apply (loop_run_sequenced _ _ _ _ _ _ Hloop).
  - now apply (loop_run_sequenced _ _ _ _ _ _ Hloop).
  - rewrite app_assoc. apply well_sequenced_app.
    + now apply (loop_run_sequenced _ _ _ _ _ _ Hloop).
    + now apply stop_run_nostart in Hstop.
Qed.

Lemma main_run_sequenced (unknown : Prop) (secs : Z) (path : string)
      (r : outcome main_result) (evs : list event) :
  main_run unknown secs path r evs -> well_sequenced evs.
Proof.
  destruct 1 as [e evs Hstart | p evs r evs' Hstart Hsup].
  - now apply startup_run_sequenced in Hstart.
  - apply startup_run_sequenced in Hstart as [Hws Hp].
    destruct (Hp p eq_refl) as [Hlive Hlast].
    now apply (supervise_run_sequenced _ _ _ _ _ Hsup).
Qed.

Section Sequencing.
Context {W : Type} `{Host W}.

(** C4.  In the trace of any run of [main] that starts with an empty
    trace, whatever the host answers and however long the loop runs: at
    every point of the trace at most one handle is live (created by a
    [Popen] that returned, and not yet waited on by a [wait] that
    returned); and every [Popen] that returns happens when no handle is
    live, either as the first one or after the trace reads: the live
    handle terminated, then waited on with the wait returning, then no
    call on a process. *)
Theorem restart_sequencing (fuel : nat) (a : args) (s : state W) :
  trace s = [] ->
  one_at_a_time (trace (snd (main fuel a s)))
  /\ restarts_in_order (trace (snd (main fuel a s))).
Proof.
  intros Hnil.
  destruct (decide (command a = Some "start")) as [Hcmd | Hcmd].
  - destruct (main fuel a s) as [r s'] eqn:Hrun.
    apply main_sound in Hrun as (evs & Ht & Hmr); [| exact Hcmd].
    cbn [snd]. rewrite Ht, Hnil. cbn [app].
    exact (main_run_sequenced _ _ _ _ _ Hmr).
  - destruct (main_help fuel a s Hcmd) as [_ ->]. rewrite Hnil.
    exact well_sequenced_nil.
Qed.
End Sequencing.

(** ** C6: when [main] exits with status 1 *)

Lemma last_app_nonempty {A} (t evs : list A) :
  evs <> [] -> last (t ++ evs) = last evs.
Proof.
  intros Hne. rewrite last_app.
  destruct (last evs) eqn:E; [reflexivity |].
  now apply last_None in E.
Qed.

Lemma host_exited_app (t evs : list event) :
  host_exited (t ++ evs) <-> host_exited t \/ host_exited evs.
Proof.
  unfold host_exited. split.
  - intros (c & code & Hin). apply in_app_or in Hin as [Hin | Hin];
      [left | right]; now exists c, code.
  - intros [(c & code & Hin) | (c & code & Hin)]; exists c, code;
      apply in_or_app; [now left | now right].
Qed.

Lemma host_exited_last (evs : list event) (c : call) (code : Z) :
  last evs = Some (Event c (Raise (SystemExit code))) -> host_exited evs.
Proof.
  intros Hlast. apply last_Some in Hlast as [l' ->].
  exists c, code. apply in_or_app. right. now left.
Qed.

Lemma sync_run_verdict (path : string) (r : outcome bool) (evs : list event) :
  sync_run r evs ->
  ~ host_exited evs ->
  (forall code, r <> Raise (SystemExit code))
  /\ (forall t, last t <> Some (entry_missing path) ->
                last (t ++ evs) <> Some (entry_missing path)).
Proof.
  intros [_ Hr] Hhost. destruct r as [b|e].
  - destruct Hr as (c & res & Hlast & Hc). split; [discriminate |].
    intros t _. rewrite last_app, Hlast. intros [= -> _]. discriminate.
  - destruct Hr as [[-> ->] | (c & Hlast)].
    + split; [discriminate |]. intros t Ht. now rewrite app_nil_r.
    + split.
      * intros code [= ->]. now apply Hhost, host_exited_last with c code.
      * intros t _. rewrite last_app, Hlast. discriminate.
Qed.

Lemma start_run_verdict (path : string) (r : outcome handle)
      (evs : list event) :
  start_run path r evs ->
  ~ host_exited evs ->
  evs <> []
  /\ (r = Raise (SystemExit 1) <-> last evs = Some (entry_missing path)).
Proof.
  intros Hrun Hhost. split; [destruct Hrun; discriminate |].
  destruct Hrun as [e | | argv e | argv h]; cbn [last].
  - split; [| discriminate]. intros [= ->]. exfalso. apply Hhost.
    exists (CExists path), 1%Z. now left.
  - split; reflexivity.
  - split; [| discriminate]. intros [= ->]. exfalso. apply Hhost.
    exists (CPopen argv), 1%Z. right. now left.
  - split; discriminate.
Qed.

Lemma restart_run_verdict (path : string) (p p' : handle) (r : outcome unit)
      (evs : list event) :
  restart_run path p r evs p' ->
  ~ host_exited evs ->
  evs <> []
  /\ (r = Raise (SystemExit 1) <-> last evs = Some (entry_missing path)).
Proof.
  intros Hrun Hhost. split; [destruct Hrun; discriminate |].
  destruct Hrun as [e | e | rc e evs Hstart | rc p' evs Hstart].
  - cbn [last]. split; [| discriminate]. intros [= ->]. exfalso. apply Hhost.
    exists (CTerminate p), 1%Z. now left.
  - cbn [last]. split; [| discriminate]. intros [= ->]. exfalso. apply Hhost.
    exists (CWait p), 1%Z. right. now left.
  - change (Event (CTerminate p) (Return VNone)
              :: Event (CWait p) (Return (VInt rc)) :: evs)
      with ([Event (CTerminate p) (Return VNone);
             Event (CWait p) (Return (VInt rc))] ++ evs)%list in *.
    apply start_run_verdict in Hstart as [Hne Hiff].
    + rewrite last_app_nonempty by exact Hne. rewrite <- Hiff.
      split; intros [= ->]; reflexivity.
    + intros Hex. apply Hhost. apply host_exited_app. now right.
  - change (Event (CTerminate p) (Return VNone)
              :: Event (CWait p) (Return (VInt rc)) :: evs)
      with ([Event (CTerminate p) (Return VNone);
             Event (CWait p) (Return (VInt rc))] ++ evs)%list in *.
    apply start_run_verdict in Hstart as [Hne Hiff].
    + rewrite last_app_nonempty by exact Hne.
      split; [discriminate |]. intros Hl. apply Hiff in Hl. discriminate.
    + intros Hex. apply Hhost. apply host_exited_app. now right.
Qed.

Lemma poll_run_verdict (secs : Z) (path : string) (p p' : handle)
      (r : outcome unit) (evs : list event) :
  poll_run secs path p r evs p' ->
  ~ host_exited evs ->
  evs <> []
  /\ (r = Raise (SystemExit 1) <-> last evs = Some (entry_missing path)).
Proof.
  intros Hrun Hhost. split; [destruct Hrun; discriminate |].
  assert (Hsleep : last [Event (CSleep secs) (Return VNone)]
                   <> Some (entry_missing path)) by discriminate.
  destruct Hrun as [e | e evs Hsync | evs Hsync | evs r evs' p' Hsync Hrestart].
  - cbn [last]. split; [| discriminate]. intros [= ->]. exfalso. apply Hhost.
    exists (CSleep secs), 1%Z. now left.
  - change (Event (CSleep secs) (Return VNone) :: evs)
      with ([Event (CSleep secs) (Return VNone)] ++ evs)%list in *.
    apply sync_run_verdict with (path := path) in Hsync as [Hne Hlast].
    + split; [intros [= ->]; now destruct (Hne 1%Z) |].
      intros Hl. now apply Hlast in Hl.
    + intros Hex. apply Hhost. apply host_exited_app. now right.
  - change (Event (CSleep secs) (Return VNone) :: evs)
      with ([Event (CSleep secs) (Return VNone)] ++ evs)%list in *.
    apply sync_run_verdict with (path := path) in Hsync as [Hne Hlast].
    + split; [discriminate |]. intros Hl. now apply Hlast in Hl.
    + intros Hex. apply Hhost. apply host_exited_app. now right.
  - change (Event (CSleep secs) (Return VNone) :: evs ++ evs')%list
      with ((Event (CSleep secs) (Return VNone) :: evs) ++ evs')%list in *.
    apply restart_run_verdict in Hrestart as [Hne Hiff].
    + now rewrite last_app_nonempty.
    + intros Hex. apply Hhost. apply host_exited_app. now right.
Qed.

Lemma loop_run_verdict (secs : Z) (path : string) (p p' : handle)
      (r : outcome unit) (evs : list event) :
  loop_run secs path p r evs p' ->
  ~ host_exited evs ->
  (evs = [] -> r = Return tt)
  /\ (r = Raise (SystemExit 1) <-> last evs = Some (entry_missing path)).
Proof.
  induction 1 as [p | p e evs p' Hpoll | p evs p' r evs' p'' Hpoll Hloop IH];
    intros Hhost.
  - split; [reflexivity |]. split; discriminate.
  - apply poll_run_verdict in Hpoll as [Hne Hiff]; [| exact Hhost].
    split; [contradiction | exact Hiff].
  - assert (Hh1 : ~ host_exited evs)
      by (intros Hex; apply Hhost, host_exited_app; now left).
    assert (Hh2 : ~ host_exited evs')
      by (intros Hex; apply Hhost, host_exited_app; now right).
    apply poll_run_verdict in Hpoll as [Hne Hiff]; [| exact Hh1].
    destruct (IH Hh2) as [Hnil Hiff'].
    split.
    + intros Heq. apply app_eq_nil in Heq as [Heq _]. contradiction.
    + destruct evs' as [|x evs'].
      * rewrite (Hnil eq_refl), app_nil_r.
        split; [discriminate |]. intros Hl. apply Hiff in Hl. discriminate.
      * now rewrite last_app_nonempty.
Qed.

Lemma stop_run_verdict (path : string) (p : handle) (r : outcome main_result)
      (evs : list event) :
  stop_run p r evs ->
  ~ host_exited evs ->
  evs <> []
  /\ r <> Raise (SystemExit 1)
  /\ last evs <> Some (entry_missing path).
Proof.
  intros Hrun Hhost. split; [destruct Hrun; discriminate |].
  destruct Hrun as [e | e | rc]; cbn [last]; (split; [| discriminate]).
  - intros [= ->]. apply Hhost. exists (CTerminate p), 1%Z. now left.
  - intros [= ->]. apply Hhost. exists (CWait p), 1%Z. right. now left.
  - discriminate.
Qed.

Lemma supervise_run_verdict (secs : Z) (path : string) (p : handle)
      (r : outcome main_result) (evs : list event) :
  supervise_run secs path p r evs ->
  ~ host_exited evs ->
  (evs = [] -> r = Return StillPolling)
  /\ (r = Raise (SystemExit 1) <-> last evs = Some (entry_missing path)).
Proof.
  intros Hrun Hhost.
  destruct Hrun as [evs p' Hloop | e evs p' Hloop _ | evs p' r evs' Hloop Hstop].
  - apply loop_run_verdict in Hloop as [_ Hiff]; [| exact Hhost].
    split; [reflexivity |]. split; [discriminate |].
    intros Hl. apply Hiff in Hl. discriminate.
  - apply loop_run_verdict in Hloop as [Hnil Hiff]; [| exact Hhost].
    split; [intros Heq; specialize (Hnil Heq); discriminate |].
    rewrite <- Hiff. split; intros [= ->]; reflexivity.
  - apply stop_run_verdict with (path := path) in Hstop as (Hne & Hr & Hl).
    + split.
      * intros Heq. apply app_eq_nil in Heq as [_ Heq]. contradiction.
      * rewrite last_app_nonempty by exact Hne. split; [intros Hx | intros Hx];
          contradiction.
    + intros Hex. apply Hhost, host_exited_app. now right.
Qed.

Lemma startup_run_verdict (unknown : Prop) (path : string)
      (r : outcome handle) (evs : list event) :
  startup_run unknown path r evs ->
  ~ host_exited evs ->
  (r = Raise (SystemExit 1)
   <-> (unknown /\ evs = []) \/ last evs = Some (entry_missing path))
  /\ (forall p, r = Return p ->
      ~ unknown /\ last evs <> Some (entry_missing path)).
Proof.
  intros Hrun Hhost.
  destruct Hrun as [e Hexit Hunk | e evs Hknown Hsync
                   | b r evs evs' Hknown Hsync Hstart].
  - split; [| discriminate]. split.
    + intros [= ->]. left. split; [apply (Hexit 1%Z eq_refl) | reflexivity].
    + intros [[Hu _] | Hl]; [now rewrite (Hunk Hu) | discriminate].
  - apply sync_run_verdict with (path := path) in Hsync as [Hne Hlast];
      [| exact Hhost].
    split; [| discriminate]. split.
    + intros [= ->]. now destruct (Hne 1%Z).
    + intros [[Hu _] | Hl]; [contradiction |].
      exfalso. apply (Hlast []); [discriminate | exact Hl].
  - apply start_run_verdict in Hstart as [Hne Hiff].
    + rewrite last_app_nonempty by exact Hne. split.
      * rewrite Hiff. split; [now right |].
        intros [[Hu _] | Hl]; [contradiction | exact Hl].
      * intros p ->. split; [exact Hknown |].
        intros Hl. apply Hiff in Hl. discriminate.
    + intros Hex. apply Hhost, host_exited_app. now right.
Qed.

Lemma main_run_verdict (unknown : Prop) (secs : Z) (path : string)
      (r : outcome main_result) (evs : list event) :
  main_run unknown secs path r evs ->
  ~ host_exited evs ->
  (r = Raise (SystemExit 1)
   <-> (unknown /\ evs = []) \/ last evs = Some (entry_missing path)).
Proof.
  intros Hrun Hhost.
  destruct Hrun as [e evs Hstart | p evs r evs' Hstart Hsup].
  - apply startup_run_verdict in Hstart as [Hiff _]; [| exact Hhost].
    rewrite <- Hiff. split; intros [= ->]; reflexivity.
  - apply startup_run_verdict in Hstart as [_ Hret];
      [| intros Hex; apply Hhost, host_exited_app; now left].
    destruct (Hret p eq_refl) as [Hknown Hlast].
    apply supervise_run_verdict in Hsup as [Hnil Hiff];
      [| intros Hex; apply Hhost, host_exited_app; now right].
    destruct evs' as [|x evs'].
    + rewrite (Hnil eq_refl), app_nil_r. split; [discriminate |].
      intros [[Hu _] | Hl]; contradiction.
    + rewrite last_app_nonempty by discriminate. rewrite Hiff.
      split; [now right |].
      intros [[Hu _] | Hl]; [contradiction | exact Hl].
Qed.

Section ExitStatus.
Context {W : Type} `{Host W}.

(** C6.  Take a run of [main] that starts with an empty trace and in
    which no primitive call raised [SystemExit].  The run ends with
    [sys.exit(1)] exactly in two cases, both under the [start] command:
    the repository is unknown to the store and no URL was given, in which
    case no call was made at all; or the last call of the run is the
    existence check of the entry file answering that it does not exist,
    that is, a start or restart found the entry file missing and created
    no process. *)
Theorem exit_status_1 (fuel : nat) (a : args) (s : state W) :
  trace s = [] ->
  ~ host_exited (trace (snd (main fuel a s))) ->
  (fst (main fuel a s) = Raise (SystemExit 1)
   <-> command a = Some "start"
       /\ ((unknown_without_url a s /\ trace (snd (main fuel a s)) = [])
           \/ last (trace (snd (main fuel a s)))
              = Some (entry_missing (entry_path a)))).
Proof.
  intros Hnil Hhost.
  destruct (decide (command a = Some "start")) as [Hcmd | Hcmd].
  - destruct (main fuel a s) as [r s'] eqn:Hrun.
    apply main_sound in Hrun as (evs & Ht & Hmr); [| exact Hcmd].
    cbn [fst snd] in *. rewrite Ht, Hnil in *. cbn [app] in *.
    rewrite (main_run_verdict _ _ _ _ _ Hmr Hhost). tauto.
  - destruct (main_help fuel a s Hcmd) as [Hr _]. rewrite Hr.
    split; [discriminate | tauto].
Qed.
End ExitStatus.

(** ** C5: an interrupt in the loop *)

Section Interrupt.
Context {W : Type} `{Host W}.

(** Once the loop has raised, more turns change nothing. *)
Lemma while_true_raised_mono (body : prog W unit) (n : nat) :
  forall (s s1 : state W) (e : exn),
    while_true n body s = (Raise e, s1) ->
    forall m, n <= m -> while_true m body s = (Raise e, s1).
Proof.
  induction n as [|n IH]; intros s s1 e Hrun m Hm; [discriminate |].
  destruct m as [|m]; [lia |].
  cbn [while_true] in *. unfold bind in *.
  destruct (body s) as [[[]|e'] s'].
  - apply IH; [exact Hrun | lia].
  - exact Hrun.
Qed.

(** C5, amended.  Let [main] have started the entry file, and let a
    [KeyboardInterrupt] be raised anywhere in its polling loop (in the
    sleep, in the synchronisation pass, or in the restart), leaving the
    state [s1].  Then [process] holds the handle [p] of the most recently
    started process, and when [terminate] and [wait] on [p] return, the
    run (however many more turns the loop is given) ends with
    [sys.exit(0)], its trace being that of [s1] followed by exactly one
    [terminate] and one [wait] on [p]: no call of a later synchronisation
    pass follows. *)
Theorem interrupt_in_loop_exits_0 (fuel : nat) (a : args) (rc : entry)
        (s s0 s1 : state W) :
  command a = Some "start" ->
  trace s = [] ->
  startup a s = (Return rc, s0) ->
  while_true fuel (poll a rc local_repo_dir) s0
  = (Raise KeyboardInterrupt, s1) ->
  exists p,
    process s1 = Some p
    /\ last_started (trace s1) = Some p
    /\ forall w2 w3 code,
        Popen_terminate p (world s1) = (Return tt, w2) ->
        Popen_wait p w2 = (Return code, w3) ->
        forall fuel', fuel <= fuel' ->
          fst (main fuel' a s) = Raise (SystemExit 0)
          /\ world (snd (main fuel' a s)) = w3
          /\ trace (snd (main fuel' a s))
             = (trace s1 ++ [Event (CTerminate p) (Return VNone);
                             Event (CWait p) (Return (VInt code))])%list.
Proof.
  intros Hcmd Hnil Hstart Hloop.
  pose proof Hstart as Hstart'.
  apply startup_sound in Hstart' as (evs & ro & Ht0 & Hsr & p0 & -> & Hp0).
  pose proof Hloop as Hloop'.
  apply loop_sound with (p := p0) in Hloop' as (evs' & p & Ht1 & Hp & Hlr);
    [| exact Hp0].
  exists p. split; [exact Hp |]. split.
  - apply startup_run_sequenced in Hsr as [Hws Hret].
    destruct (Hret p0 eq_refl) as [Hlive Hlast].
    rewrite Ht1, Ht0, Hnil. cbn [app].
    now apply (loop_run_sequenced _ _ _ _ _ _ Hlr).
  - intros w2 w3 code Hterm Hwait fuel' Hfuel.
    apply while_true_raised_mono with (m := fuel') in Hloop; [| exact Hfuel].
    unfold main. rewrite Hcmd. unfold bind at 1. rewrite Hstart.
    unfold supervise, try_except, bind at 1. rewrite Hloop.
    unfold on_interrupt. cbn [is_KeyboardInterrupt].
    destruct (debug a); run_prog; rewrite Hp; run_prog;
      rewrite <- ?app_assoc; repeat split; reflexivity.
Qed.
End Interrupt.

(** ** C10: the first clone fails *)

Section FirstClone.
Context {W : Type} `{Host W}.

(** C10, amended.  Let the first synchronisation pass find no [.git] and
    its clone fail with a [GitCommandError].  [main] then goes straight to
    the existence check of the entry file, with no sleep in between.  If
    the entry file does not exist, [main] ends with [sys.exit(1)] after
    these three calls, no process having been created.  If it exists (the
    local path held files before the run), the supervised process is
    created. *)
Theorem first_clone_failure (fuel : nat) (a : args) (cfg : config)
        (rc : entry) (auth : option string) (msg : string)
        (s s0 : state W) (w1 w2 : W) :
  command a = Some "start" ->
  load_config s = (Return cfg, s) ->
  resolve_repo_config a cfg s = (Return (Some rc), s0) ->
  get_authenticated_url (rc !! "url") (rc !! "token") = Return auth ->
  os_path_exists (path_join local_repo_dir ".git") (world s0)
  = (Return false, w1) ->
  Repo_clone_from auth local_repo_dir w1
  = (Raise (GitCommandError msg), w2) ->
  (forall w3,
      os_path_exists (entry_path a) w2 = (Return false, w3) ->
      fst (main fuel a s) = Raise (SystemExit 1)
      /\ trace (snd (main fuel a s))
         = (trace s ++ [Event (CExists (path_join local_repo_dir ".git"))
                              (Return (VBool false));
                        Event (CClone auth local_repo_dir)
                              (Raise (GitCommandError msg));
                        entry_missing (entry_path a)])%list)
  /\ (forall w3 w4 h,
        os_path_exists (entry_path a) w2 = (Return true, w3) ->
        Popen [sys_executable; entry_path a] w3 = (Return h, w4) ->
        exists s1,
          startup a s = (Return rc, s1)
          /\ process s1 = Some h
          /\ trace s1
             = (trace s ++ [Event (CExists (path_join local_repo_dir ".git"))
                                  (Return (VBool false));
                            Event (CClone auth local_repo_dir)
                                  (Raise (GitCommandError msg));
                            Event (CExists (entry_path a))
                                  (Return (VBool true));
                            Event (CPopen [sys_executable; entry_path a])
                                  (Return (VHandle h))])%list).
Proof.
  intros Hcmd Hload Hres Hauth Hgit Hclone.
  pose proof (resolve_run _ _ _ _ _ Hres) as (Ht0 & _).
  unfold entry_path, entry_missing. split.
  - intros w3 Hentry. unfold main. rewrite Hcmd.
    unfold startup, clone_or_update_repo, run_start_file.
    destruct (debug a); run_prog; rewrite Hauth; run_prog;
      rewrite <- ?app_assoc, Ht0; split; reflexivity.
  - intros w3 w4 h Hentry Hpopen.
    unfold startup, clone_or_update_repo, run_start_file.
    destruct (debug a); run_prog; rewrite Hauth; run_prog;
      rewrite <- ?app_assoc, Ht0; eexists; repeat split; reflexivity.
Qed.
End FirstClone.

(** ** Runs on the simulated host *)

(** The upstream branch advances between the first and the second poll: the
    process is started once and restarted once, in this order. *)
Example upstream_advances_restarts_once :
  fst (main 2 demo_args upstream_advances) = Return StillPolling
  /\ filter (fun e => quiet e = false)
            (trace (snd (main 2 demo_args upstream_advances)))
     = [Event (CPopen ["/usr/bin/python3"; "/srv/snt/repo/app.py"])
              (Return (VHandle 100));
        Event (CTerminate 100) (Return VNone);
        Event (CWait 100) (Return (VInt (-15)));
        Event (CPopen ["/usr/bin/python3"; "/srv/snt/repo/app.py"])
              (Return (VHandle 101))].
Proof. vm_compute. split; reflexivity. Qed.

Lemma restart_sequencing_witness :
  one_at_a_time (trace (snd (main 2 demo_args upstream_advances)))
  /\ restarts_in_order (trace (snd (main 2 demo_args upstream_advances))).
Proof. exact (restart_sequencing 2 demo_args upstream_advances eq_refl). Defined.

(** An interrupt during the fetch of the first synchronisation pass is not
    caught: [main] ends with the [KeyboardInterrupt], not with
    [sys.exit(0)]. *)
Lemma interrupt_during_first_pass_uncaught :
  fst (main 2 demo_args interrupted_in_first_fetch) = Raise KeyboardInterrupt
  /\ fst (main 2 demo_args interrupted_in_first_fetch)
     <> Raise (SystemExit 0)
  /\ trace (snd (main 2 demo_args interrupted_in_first_fetch))
     = [Event (CExists "/srv/snt/repo/.git") (Return (VBool true));
        Event (COpen "/srv/snt/repo") (Return VNone);
        Event (COrigin "/srv/snt/repo") (Return VNone);
        Event (CFetch "/srv/snt/repo") (Raise KeyboardInterrupt)].
Proof. vm_compute. repeat split. discriminate. Qed.

Lemma interrupt_in_loop_exits_0_witness :
  fst (main 3 demo_args interrupted_in_sleep) = Raise (SystemExit 0)
  /\ trace (snd (main 3 demo_args interrupted_in_sleep))
     = (trace (snd (while_true 1 (poll demo_args demo_entry local_repo_dir)
                      (snd (startup demo_args interrupted_in_sleep))))
          ++ [Event (CTerminate 100) (Return VNone);
              Event (CWait 100) (Return (VInt (-15)))])%list.
Proof.
  assert (Hstart : startup demo_args interrupted_in_sleep
                   = (Return demo_entry,
                      snd (startup demo_args interrupted_in_sleep)))
    by (vm_compute; reflexivity).
  assert (Hloop : while_true 1 (poll demo_args demo_entry local_repo_dir)
                    (snd (startup demo_args interrupted_in_sleep))
                  = (Raise KeyboardInterrupt,
                     snd (while_true 1
                            (poll demo_args demo_entry local_repo_dir)
                            (snd (startup demo_args interrupted_in_sleep)))))
    by (vm_compute; reflexivity).
  destruct (interrupt_in_loop_exits_0 1 demo_args demo_entry
              interrupted_in_sleep _ _ eq_refl eq_refl Hstart Hloop)
    as (p & Hp & _ & Hexit).
  vm_compute in Hp. injection Hp as <-.
  destruct (Hexit _ _ (-15)%Z ltac:(vm_compute; reflexivity)
              ltac:(vm_compute; reflexivity) 3 ltac:(lia))
    as (Hr & _ & Ht).
  split; [exact Hr | exact Ht].
Defined.

Lemma exit_status_1_witness :
  fst (main 2 demo_args (init (fresh_sim []) None)) = Raise (SystemExit 1)
  <-> command demo_args = Some "start"
      /\ ((unknown_without_url demo_args (init (fresh_sim []) None)
           /\ trace (snd (main 2 demo_args (init (fresh_sim []) None))) = [])
          \/ last (trace (snd (main 2 demo_args (init (fresh_sim []) None))))
             = Some (entry_missing (entry_path demo_args))).
Proof.
  apply (exit_status_1 2 demo_args (init (fresh_sim []) None) eq_refl).
  vm_compute. intros (c & code & []).
Defined.

(** The local path holds the entry file but no [.git]: the clone fails, and
    the entry file is started all the same. *)
Lemma first_clone_failure_not_fatal :
  fst (main 0 demo_args (init stale_sim demo_store)) = Return StillPolling
  /\ fst (main 0 demo_args (init stale_sim demo_store))
     <> Raise (SystemExit 1)
  /\ trace (snd (main 0 demo_args (init stale_sim demo_store)))
     = [Event (CExists "/srv/snt/repo/.git") (Return (VBool false));
        Event (CClone (Some "https://h/r.git") "/srv/snt/repo")
              (Raise (GitCommandError "destination path already exists and is not an empty directory"));
        Event (CExists "/srv/snt/repo/app.py") (Return (VBool true));
        Event (CPopen ["/usr/bin/python3"; "/srv/snt/repo/app.py"])
              (Return (VHandle 100))].
Proof. vm_compute. repeat split. discriminate. Qed.

Lemma first_clone_failure_witness :
  fst (main 2 demo_args clone_fails) = Raise (SystemExit 1)
  /\ trace (snd (main 2 demo_args clone_fails))
     = [Event (CExists "/srv/snt/repo/.git") (Return (VBool false));
        Event (CClone (Some "https://h/r.git") "/srv/snt/repo")
              (Raise (GitCommandError "exit code(128)"));
        entry_missing "/srv/snt/repo/app.py"].
Proof.
  refine (proj1 (first_clone_failure 2 demo_args _ demo_entry
                   (Some "https://h/r.git") "exit code(128)"
                   clone_fails clone_fails _ _
                   eq_refl _ _ _ _ _) _ _).
  - vm_compute; reflexivity.
  - vm_compute; reflexivity.
  - vm_compute; reflexivity.
  - vm_compute; reflexivity.
  - vm_compute; reflexivity.
  - vm_compute; reflexivity.
Defined.

(** * Further properties *)

(** ** The authenticated URL, continued *)

(** X1.  [get_authenticated_url] raises only in one case: a token is given
    and the URL is [None]; the exception is then [AttributeError]. *)
Theorem get_authenticated_url_raises_iff (url tok : option string) (e : exn) :
  get_authenticated_url url tok = Raise e
  <-> e = AttributeError /\ truthy tok = true /\ url = None.
Proof.
  unfold get_authenticated_url, truthy. split.
  - destruct (nonempty tok) as [t|]; [| discriminate].
    destruct url as [u|]; [| now intros [= <-]].
    destruct (startswith u "https://"); [discriminate |].
    destruct (startswith u "http://"); discriminate.
  - intros (-> & Htok & ->).
    destruct (nonempty tok); [reflexivity | discriminate].
Qed.

(** X2.  The transform is not idempotent: applied to its own result it
    inserts the token a second time. *)
Theorem get_authenticated_url_twice (t rest : string) :
  t <> "" ->
  get_authenticated_url (Some ("https://" ++ t ++ "@" ++ rest)) (Some t)
  = Return (Some ("https://" ++ t ++ "@" ++ t ++ "@" ++ rest))
  /\ get_authenticated_url (Some ("http://" ++ t ++ "@" ++ rest)) (Some t)
     = Return (Some ("http://" ++ t ++ "@" ++ t ++ "@" ++ rest)).
Proof.
  intros Hne. unfold get_authenticated_url. rewrite (nonempty_Some t Hne).
  split.
  - unfold startswith. rewrite prefix_app, str_replace1_prefix.
    now rewrite !string_app_assoc.
  - unfold startswith.
    replace (String.prefix "https://" ("http://" ++ t ++ "@" ++ rest))
      with false by reflexivity.
    rewrite prefix_app, str_replace1_prefix.
    now rewrite !string_app_assoc.
Qed.

Lemma get_authenticated_url_twice_witness :
  get_authenticated_url (Some "https://tok@host/r.git") (Some "tok")
  = Return (Some "https://tok@tok@host/r.git").
Proof.
  exact (proj1 (get_authenticated_url_twice "tok" "host/r.git"
                  ltac:(discriminate))).
Defined.

(** ** The configuration store, continued *)

Section StoreMore.
Context {W : Type} `{Host W}.

Lemma update_repo_config_eq (cfg : config) (rs : repos) (repo_id : Z)
      (url tok : option string) (s : state W) :
  cfg !! "repos" = Some rs ->
  update_repo_config cfg repo_id url tok s
  = (Return (<["repos" := updated_repos rs (pretty repo_id) url tok]> cfg),
     mkState (world s)
             (Some (Json (<["repos" := updated_repos rs (pretty repo_id)
                                         url tok]> cfg)))
             (stdout s) (trace s) (process s)).
Proof.
  intros Hrs.
  unfold update_repo_config, updated_repos, bind, lift, config_repos,
    save_config, ret.
  rewrite Hrs. cbn [world config_file stdout trace process].
  destruct (nonempty tok); reflexivity.
Qed.

Lemma set_field_same (k f v : string) (rs : repos) (e : entry) :
  rs !! k = Some e -> e !! f = Some v -> set_field k f v rs = rs.
Proof.
  intros Hk Hf. unfold set_field. rewrite Hk.
  rewrite (insert_id e f v Hf). now apply insert_id.
Qed.

Lemma set_field_lookup (k f v : string) (rs : repos) (e : entry) :
  rs !! k = Some e ->
  set_field k f v rs !! k = Some (<[f := v]> e).
Proof. intros Hk. unfold set_field. rewrite Hk. apply lookup_insert_eq. Qed.

(** The entry of the key in [updated_repos], field by field. *)
Lemma updated_repos_lookup (rs : repos) (k : string) (url tok : option string) :
  exists e,
    updated_repos rs k url tok !! k = Some e
    /\ e !! "url" = match nonempty url with
                    | Some u => Some u
                    | None => default ∅ (rs !! k) !! "url"
                    end
    /\ e !! "token" = match nonempty tok with
                      | Some t => Some t
                      | None => default ∅ (rs !! k) !! "token"
                      end
    /\ forall f, f <> "url" -> f <> "token" ->
                 e !! f = default ∅ (rs !! k) !! f.
Proof.
  unfold updated_repos.
  set (rs1 := match rs !! k with None => <[k:=∅]> rs | Some _ => rs end).
  assert (H1 : rs1 !! k = Some (default ∅ (rs !! k))).
  { unfold rs1. destruct (rs !! k) eqn:E; [exact E | apply lookup_insert_eq]. }
  destruct (nonempty url) as [u|], (nonempty tok) as [t|].
  - rewrite (set_field_lookup k "token" t _ _ (set_field_lookup k "url" u _ _ H1)).
    eexists. split; [reflexivity |]. split; [| split].
    + rewrite lookup_insert_ne by discriminate. apply lookup_insert_eq.
    + apply lookup_insert_eq.
    + intros f Hu Ht. now rewrite !lookup_insert_ne by congruence.
  - rewrite (set_field_lookup k "url" u _ _ H1).
    eexists. split; [reflexivity |]. split; [| split].
    + apply lookup_insert_eq.
    + now rewrite lookup_insert_ne by discriminate.
    + intros f Hu Ht. now rewrite lookup_insert_ne by congruence.
  - rewrite (set_field_lookup k "token" t _ _ H1).
    eexists. split; [reflexivity |]. split; [| split].
    + now rewrite lookup_insert_ne by discriminate.
    + apply lookup_insert_eq.
    + intros f Hu Ht. now rewrite lookup_insert_ne by congruence.
  - rewrite H1. eexists. split; [reflexivity |]. now repeat split.
Qed.

(** Updating again with the same arguments changes nothing. *)
Lemma updated_repos_idem (rs : repos) (k : string) (url tok : option string) :
  updated_repos (updated_repos rs k url tok) k url tok
  = updated_repos rs k url tok.
Proof.
  destruct (updated_repos_lookup rs k url tok) as (e & He & Hurl & Htok & _).
  set (rs' := updated_repos rs k url tok) in *.
  unfold updated_repos at 1. rewrite He.
  destruct (nonempty url) as [u|], (nonempty tok) as [t|].
  - rewrite (set_field_same k "url" u rs' e He Hurl).
    now apply set_field_same with e.
  - now apply set_field_same with e.
  - now apply set_field_same with e.
  - reflexivity.
Qed.

(** X3.  On a store without the ["repos"] dictionary, looking an identity
    up and updating it both raise [KeyError "repos"]; the update leaves the
    state, [config.json] included, as it was. *)
Theorem store_without_repos (cfg : config) (repo_id : Z)
        (url tok : option string) (s : state W) :
  cfg !! "repos" = None ->
  get_repo_config cfg repo_id = Raise (KeyError "repos")
  /\ update_repo_config cfg repo_id url tok s = (Raise (KeyError "repos"), s).
Proof.
  intros Hno.
  unfold get_repo_config, update_repo_config, bind, lift, config_repos.
  now rewrite Hno.
Qed.

(** X4.  [update_repo_config] is idempotent: repeating an update with the
    same arguments on its own result returns the same store and leaves the
    same state. *)
Theorem update_repo_config_idempotent (cfg cfg1 : config) (rs : repos)
        (repo_id : Z) (url tok : option string) (s s1 : state W) :
  cfg !! "repos" = Some rs ->
  update_repo_config cfg repo_id url tok s = (Return cfg1, s1) ->
  update_repo_config cfg1 repo_id url tok s1 = (Return cfg1, s1).
Proof.
  intros Hrs Hrun.
  rewrite (update_repo_config_eq cfg rs repo_id url tok s Hrs) in Hrun.
  injection Hrun as <- <-.
  rewrite (update_repo_config_eq _ (updated_repos rs (pretty repo_id) url tok)
             repo_id url tok _ (lookup_insert_eq _ _ _)).
  cbn [world stdout trace process].
  now rewrite updated_repos_idem, insert_insert_eq.
Qed.

(** X5.  An update that gives neither a URL nor a token for an identity
    that has an entry returns the store unchanged, and still writes it to
    [config.json]. *)
Theorem update_repo_config_nothing_given (cfg : config) (rs : repos)
        (e : entry) (repo_id : Z) (url tok : option string) (s : state W) :
  cfg !! "repos" = Some rs ->
  rs !! pretty repo_id = Some e ->
  truthy url = false ->
  truthy tok = false ->
  update_repo_config cfg repo_id url tok s
  = (Return cfg,
     mkState (world s) (Some (Json cfg)) (stdout s) (trace s) (process s)).
Proof.
  intros Hrs He Hurl Htok.
  rewrite (update_repo_config_eq cfg rs repo_id url tok s Hrs).
  unfold updated_repos.
  rewrite He, (truthy_false _ Hurl), (truthy_false _ Htok).
  now rewrite (insert_id cfg "repos" rs Hrs).
Qed.
End StoreMore.

(** ** Resolving the repository entry *)

Section Resolve.
Context {W : Type} `{Host W}.

(** X6.  For an identity the store knows, [main] works with the stored
    entry: a token given on the command line replaces the stored one and is
    written to [config.json]; every other field, the URL included, stays as
    stored, whatever [--repo-url] says.  Without a token nothing is
    written. *)
Theorem resolve_known (a : args) (cfg : config) (rs : repos) (e : entry)
        (s : state W) :
  cfg !! "repos" = Some rs ->
  rs !! pretty (repo a) = Some e ->
  exists (e' : entry) (s' : state W),
    resolve_repo_config a cfg s = (Return (Some e'), s')
    /\ e' !! "url" = e !! "url"
    /\ e' !! "token" = match nonempty (token a) with
                       | Some t => Some t
                       | None => e !! "token"
                       end
    /\ (forall f, f <> "token" -> e' !! f = e !! f)
    /\ world s' = world s /\ trace s' = trace s
    /\ (truthy (token a) = false -> s' = s /\ e' = e)
    /\ (truthy (token a) = true ->
        exists cfg', config_file s' = Some (Json cfg')
                     /\ get_repo_config cfg' (repo a) = Return (Some e')).
Proof.
  intros Hrs He. unfold resolve_repo_config.
  assert (Hget : get_repo_config cfg (repo a) = Return (Some e))
    by (unfold get_repo_config, config_repos; now rewrite Hrs, He).
  rewrite Hget. unfold bind at 1, lift at 1.
  destruct (truthy (token a)) eqn:Htok.
  - unfold bind. rewrite (update_repo_config_eq cfg rs _ _ _ s Hrs).
    destruct (updated_repos_lookup rs (pretty (repo a)) None (token a))
      as (e' & He' & Hurl & Htoken & Hrest).
    rewrite He in Hurl, Htoken, Hrest. cbn [default nonempty] in *.
    assert (Hget' : get_repo_config
                      (<["repos" := updated_repos rs (pretty (repo a)) None
                                      (token a)]> cfg) (repo a)
                    = Return (Some e'))
      by (unfold get_repo_config, config_repos;
          now rewrite lookup_insert_eq, He').
    unfold lift. rewrite Hget'.
    exists e'. eexists. split; [reflexivity |].
    cbn [world trace config_file].
    split; [exact Hurl |]. split; [exact Htoken |]. split.
    { intros f Hf. destruct (decide (f = "url")) as [-> | Hu];
        [exact Hurl | now apply Hrest]. }
    split; [reflexivity |]. split; [reflexivity |].
    split; [discriminate |]. intros _. eexists. now split.
  - unfold ret. exists e, s. split; [reflexivity |].
    rewrite (truthy_false _ Htok).
    repeat split; try reflexivity. discriminate.
Qed.

(** X7.  For an identity the store does not know, a URL given on the
    command line registers it: the new entry holds that URL, the token when
    one is given, and nothing else; it is what [config.json] holds for the
    identity afterwards, and no primitive call is made. *)
Theorem resolve_unknown_registers (a : args) (cfg : config) (rs : repos)
        (u : string) (s : state W) :
  cfg !! "repos" = Some rs ->
  rs !! pretty (repo a) = None ->
  nonempty (repo_url a) = Some u ->
  exists (e' : entry) (cfg' : config) (s' : state W),
    resolve_repo_config a cfg s = (Return (Some e'), s')
    /\ config_file s' = Some (Json cfg')
    /\ get_repo_config cfg' (repo a) = Return (Some e')
    /\ e' !! "url" = Some u
    /\ e' !! "token" = nonempty (token a)
    /\ (forall f, f <> "url" -> f <> "token" -> e' !! f = None)
    /\ world s' = world s /\ trace s' = trace s.
Proof.
  intros Hrs Hnone Hurl. unfold resolve_repo_config.
  assert (Hget : get_repo_config cfg (repo a) = Return None)
    by (unfold get_repo_config, config_repos; now rewrite Hrs, Hnone).
  rewrite Hget. unfold bind at 1, lift at 1.
  unfold truthy. rewrite Hurl.
  destruct (bind_when_print (debug a)
              ("[DEBUG] Repository with number " ++ pretty (repo a)
                 ++ " not found. Creating a new entry.")
              (fun _ => bind (update_repo_config cfg (repo a)
                                (repo_url a) (token a))
                          (fun cfg' => lift (get_repo_config cfg' (repo a))))
              s) as (s0 & Hk & Ht0 & Hw0 & _).
  rewrite Hk. unfold bind.
  rewrite (update_repo_config_eq cfg rs _ _ _ s0 Hrs).
  destruct (updated_repos_lookup rs (pretty (repo a)) (repo_url a) (token a))
    as (e' & He' & Hu & Htoken & Hrest).
  rewrite Hnone, Hurl in *. cbn [default] in *.
  rewrite lookup_empty in Htoken.
  assert (Hget' : get_repo_config
                    (<["repos" := updated_repos rs (pretty (repo a))
                                    (repo_url a) (token a)]> cfg) (repo a)
                  = Return (Some e'))
    by (unfold get_repo_config, config_repos;
        now rewrite lookup_insert_eq, He').
  unfold lift. rewrite Hget'.
  exists e'. eexists. eexists. split; [reflexivity |].
  cbn [world trace config_file].
  split; [reflexivity |]. split; [exact Hget' |]. split; [exact Hu |].
  split; [destruct (nonempty (token a)); exact Htoken |].
  split; [| now split].
  intros f H1 H2. rewrite (Hrest f H1 H2). apply lookup_empty.
Qed.

(** X8.  With a [config.json] that does not parse, [main start] ends with
    [JSONDecodeError] at once: no primitive is called, nothing is printed,
    and the file is left as it is. *)
Theorem main_malformed_config (fuel : nat) (a : args) (s : state W) :
  command a = Some "start" ->
  config_file s = Some Malformed ->
  main fuel a s = (Raise JSONDecodeError, s).
Proof.
  intros Hcmd Hfile. unfold main. rewrite Hcmd.
  unfold startup, bind, load_config. now rewrite Hfile.
Qed.
End Resolve.

(** ** The synchronisation pass, continued *)

Section SyncMore.
Context {W : Type} `{Host W}.

Lemma is_GitCommandError_Some (e : exn) (msg : string) :
  is_GitCommandError e = Some msg -> e = GitCommandError msg.
Proof. destruct e; cbn; intros [= <-]; reflexivity. Qed.

(** X9.  Whatever the host answers, a synchronisation pass calls only the
    git client and the [.git] existence check: it never starts, terminates
    or waits on a process, never sleeps, and leaves [process] and
    [config.json] as they were. *)
Theorem sync_calls_only_git (rc : entry) (dir : string) (dbg : bool)
        (s : state W) :
  process (snd (clone_or_update_repo rc dir dbg s)) = process s
  /\ config_file (snd (clone_or_update_repo rc dir dbg s)) = config_file s
  /\ exists evs,
      trace (snd (clone_or_update_repo rc dir dbg s)) = (trace s ++ evs)%list
      /\ forallb git_event evs = true.
Proof.
  unfold clone_or_update_repo.
  destruct (get_authenticated_url (rc !! "url") (rc !! "token"))
    as [auth|e].
  - destruct dbg; all_runs; cbn [snd process config_file trace];
      (split; [reflexivity |]); (split; [reflexivity |]); trace_tail;
      reflexivity.
  - unfold_prog. repeat split. exists []. now rewrite app_nil_r.
Qed.

(** X10.  A pass calls [reset], [clean] or [pull] only after it has read
    the local head and the remote commit of the branch and found them
    different: an up-to-date working copy is never reset. *)
Theorem sync_discards_only_on_divergence (rc : entry) (dir : string)
        (dbg : bool) (s : state W) :
  exists evs,
    trace (snd (clone_or_update_repo rc dir dbg s)) = (trace s ++ evs)%list
    /\ (existsb discard_event evs = true ->
        exists b l r pre post,
          evs = (pre ++ Event (CHead dir) (Return (VStr l))
                     :: Event (CRemoteRef dir b) (Return (VStr r))
                     :: post)%list
          /\ l <> r
          /\ existsb discard_event pre = false).
Proof.
  unfold clone_or_update_repo.
  destruct (get_authenticated_url (rc !! "url") (rc !! "token"))
    as [auth|e].
  - destruct dbg; all_runs; cbn [snd trace]; trace_tail; intros Hd;
      first [ discriminate Hd
            | eexists _, _, _, [_; _; _; _; _], _;
              split; [reflexivity |];
              split; [apply String.eqb_neq; assumption | reflexivity] ].
  - unfold_prog. cbn [snd]. exists []. rewrite app_nil_r.
    split; [reflexivity | discriminate].
Qed.

(** X11.  A pass clones exactly when the [.git] check answers that there is
    none: it is then that check followed by one clone of the authenticated
    URL and nothing else; in every other case it makes no clone call. *)
Theorem sync_clones_iff_no_git (rc : entry) (dir : string) (dbg : bool)
        (s : state W) :
  exists evs,
    trace (snd (clone_or_update_repo rc dir dbg s)) = (trace s ++ evs)%list
    /\ (head evs = Some (Event (CExists (path_join dir ".git"))
                               (Return (VBool false))) ->
        exists url res,
          get_authenticated_url (rc !! "url") (rc !! "token") = Return url
          /\ evs = [Event (CExists (path_join dir ".git"))
                          (Return (VBool false));
                    Event (CClone url dir) res])
    /\ (head evs <> Some (Event (CExists (path_join dir ".git"))
                                (Return (VBool false))) ->
        existsb clone_event evs = false).
Proof.
  unfold clone_or_update_repo.
  destruct (get_authenticated_url (rc !! "url") (rc !! "token"))
    as [auth|e].
  - destruct dbg; all_runs; cbn [snd trace]; trace_tail;
      (split; intros Hh;
       [ first [ discriminate Hh | eexists _, _; split; reflexivity ]
       | first [ reflexivity | exfalso; apply Hh; reflexivity ] ]).
  - unfold_prog. cbn [snd]. exists []. rewrite app_nil_r.
    split; [reflexivity |]. split; [discriminate | reflexivity].
Qed.

(** X12.  Without [debug], a pass prints exactly when it catches a
    [GitCommandError] (from the clone, the fetch, or [reset], [clean],
    [pull]): one line naming the failed step and carrying the message; it
    then returns [False].  In every other case it prints nothing. *)
Theorem sync_reports_failures (rc : entry) (dir : string) (s : state W) :
  exists evs,
    trace (snd (clone_or_update_repo rc dir false s)) = (trace s ++ evs)%list
    /\ stdout (snd (clone_or_update_repo rc dir false s))
       = (stdout s ++ reported_lines evs)%list
    /\ (reported_lines evs <> [] ->
        fst (clone_or_update_repo rc dir false s) = Return false).
Proof.
  unfold clone_or_update_repo.
  destruct (get_authenticated_url (rc !! "url") (rc !! "token"))
    as [auth|e].
  - all_runs;
      repeat match goal with
             | Hg : is_GitCommandError _ = Some _ |- _ =>
                 apply is_GitCommandError_Some in Hg; subst
             end;
      cbn [snd fst trace stdout]; trace_tail;
      unfold reported_lines;
      cbn [last reported raised_git_error option_map];
      repeat match goal with
             | Hg : is_GitCommandError ?e = None |- _ =>
                 destruct e; try discriminate Hg; clear Hg
             end;
      rewrite ?app_nil_r; (split; [reflexivity |]);
      intros Hne; first [ reflexivity | now destruct Hne ].
  - unfold_prog. cbn [snd fst]. exists []. rewrite app_nil_r.
    split; [reflexivity |]. unfold reported_lines. cbn.
    rewrite app_nil_r. split; [reflexivity | intros Hne; now destruct Hne].
Qed.
End SyncMore.

(** ** The debug flag *)

Section Debug.
Context {W : Type} `{Host W}.

Lemma agree_ret {A} (a : A) (s1 s2 : state W) :
  same_run s1 s2 -> agree (ret a s1) (ret a s2).
Proof. intros Hs. now split. Qed.

Lemma agree_raise {A} (e : exn) (s1 s2 : state W) :
  same_run s1 s2 -> agree (raise (A := A) e s1) (raise e s2).
Proof. intros Hs. now split. Qed.

Lemma agree_lift {A} (o : outcome A) (s1 s2 : state W) :
  same_run s1 s2 -> agree (lift o s1) (lift o s2).
Proof. intros Hs. now split. Qed.

Lemma agree_bind {A B} (m1 m2 : prog W A) (k1 k2 : A -> prog W B)
      (s1 s2 : state W) :
  agree (m1 s1) (m2 s2) ->
  (forall a t1 t2, same_run t1 t2 -> agree (k1 a t1) (k2 a t2)) ->
  agree (bind m1 k1 s1) (bind m2 k2 s2).
Proof.
  unfold bind. destruct (m1 s1) as [r1 t1], (m2 s2) as [r2 t2].
  intros [Hr Hs] Hk. cbn [fst snd] in *. subst r2.
  destruct r1 as [a|e]; [now apply Hk | now split].
Qed.

Lemma agree_try {A} (b1 b2 : prog W A) (h1 h2 : exn -> option (prog W A))
      (s1 s2 : state W) :
  agree (b1 s1) (b2 s2) ->
  (forall e t1 t2, same_run t1 t2 ->
     match h1 e, h2 e with
     | Some k1, Some k2 => agree (k1 t1) (k2 t2)
     | None, None => True
     | _, _ => False
     end) ->
  agree (try_except b1 h1 s1) (try_except b2 h2 s2).
Proof.
  unfold try_except. destruct (b1 s1) as [r1 t1], (b2 s2) as [r2 t2].
  intros [Hr Hs] Hh. cbn [fst snd] in *. subst r2.
  destruct r1 as [a|e]; [now split |].
  specialize (Hh e t1 t2 Hs).
  destruct (h1 e), (h2 e); try contradiction; [exact Hh | now split].
Qed.

Lemma agree_print (b1 b2 : bool) (l1 l2 : string) (s1 s2 : state W) :
  same_run s1 s2 ->
  agree (when b1 (print l1) s1) (when b2 (print l2) s2).
Proof. intros Hs. destruct b1, b2; now split. Qed.

Lemma agree_print1 (l1 l2 : string) (s1 s2 : state W) :
  same_run s1 s2 -> agree (print l1 s1) (print l2 s2).
Proof. intros Hs. now split. Qed.

Lemma agree_prim {A} (c : call) (v : A -> value) (op : W -> outcome A * W)
      (s1 s2 : state W) :
  same_run s1 s2 -> agree (prim c v op s1) (prim c v op s2).
Proof.
  intros (Hw & Hc & Ht & Hp). unfold prim. rewrite Hw.
  destruct (op (world s2)) as [r w]. split; [reflexivity |].
  unfold same_run. cbn. now rewrite Hc, Ht, Hp.
Qed.

Lemma agree_get_process (s1 s2 : state W) :
  same_run s1 s2 -> agree (get_process s1) (get_process s2).
Proof.
  intros Hs. pose proof Hs as (_ & _ & _ & Hp). unfold get_process.
  rewrite Hp. destruct (process s2); now split.
Qed.

Lemma agree_set_process (h : handle) (s1 s2 : state W) :
  same_run s1 s2 -> agree (set_process h s1) (set_process h s2).
Proof. intros (Hw & Hc & Ht & Hp). now repeat split. Qed.

Lemma agree_load_config (s1 s2 : state W) :
  same_run s1 s2 -> agree (load_config s1) (load_config s2).
Proof.
  intros Hs. pose proof Hs as (_ & Hc & _). unfold load_config.
  rewrite Hc. destruct (config_file s2) as [[c|]|]; now split.
Qed.

Lemma agree_update_repo_config (cfg : config) (repo_id : Z)
      (url tok : option string) (s1 s2 : state W) :
  same_run s1 s2 ->
  agree (update_repo_config cfg repo_id url tok s1)
        (update_repo_config cfg repo_id url tok s2).
Proof.
  intros (Hw & Hc & Ht & Hp).
  unfold update_repo_config, config_repos, save_config.
  destruct (cfg !! "repos"); unfold_prog; now repeat split.
Qed.

Ltac agree_step :=
  first
    [ assumption
    | apply agree_ret | apply agree_raise | apply agree_lift
    | apply agree_print | apply agree_print1 | apply agree_prim
    | apply agree_get_process | apply agree_set_process
    | apply agree_load_config | apply agree_update_repo_config
    | apply agree_bind; [| intros ? ? ? ?]
    | apply agree_try; [| intros ? ? ? ?] ].

Lemma sync_agree (rc : entry) (dir : string) (d1 d2 : bool)
      (s1 s2 : state W) :
  same_run s1 s2 ->
  agree (clone_or_update_repo rc dir d1 s1) (clone_or_update_repo rc dir d2 s2).
Proof.
  intros Hs. unfold clone_or_update_repo, on_GitCommandError,
    exists_, clone_from, open_repo, origin, fetch, active_branch, head_commit,
    remote_ref, reset_hard, clean_fd, pull.
  repeat (agree_step
          || match goal with
             | |- agree ((if negb ?b then _ else _) _) _ => destruct b; cbn [negb]
             | |- agree (match ?o with Some _ => _ | None => _ end _) _ =>
                 destruct o
             | |- match match is_GitCommandError ?e with _ => _ end with _ => _ end =>
                 destruct (is_GitCommandError e)
             | |- match (if ?b then _ else _) with _ => _ end =>
                 destruct b
             | |- True => exact I
             end).
Qed.

Lemma start_agree (dir f : string) (d1 d2 : bool) (s1 s2 : state W) :
  same_run s1 s2 ->
  agree (run_start_file dir f d1 s1) (run_start_file dir f d2 s2).
Proof.
  intros Hs. unfold run_start_file, exists_, popen.
  repeat (agree_step
          || match goal with
             | |- agree ((if negb ?b then _ else _) _) _ => destruct b; cbn [negb]
             end).
Qed.

Lemma restart_agree (a : args) (dir : string) (d1 d2 : bool)
      (s1 s2 : state W) :
  same_run s1 s2 ->
  agree (restart (with_debug a d1) dir s1) (restart (with_debug a d2) dir s2).
Proof.
  intros Hs. unfold restart, terminate, wait. cbn [debug start_file with_debug].
  repeat first [apply start_agree | agree_step].
Qed.

Lemma poll_agree (a : args) (rc : entry) (dir : string) (d1 d2 : bool)
      (s1 s2 : state W) :
  same_run s1 s2 ->
  agree (poll (with_debug a d1) rc dir s1) (poll (with_debug a d2) rc dir s2).
Proof.
  intros Hs. unfold poll, sleep. cbn [debug check_time with_debug].
  apply agree_bind; [now apply agree_prim | intros ? t1 t2 Ht].
  apply agree_bind; [now apply agree_print | intros ? u1 u2 Hu].
  apply agree_bind; [now apply sync_agree | intros b v1 v2 Hv].
  destruct b; [now apply restart_agree | now apply agree_ret].
Qed.

Lemma loop_agree (a : args) (rc : entry) (dir : string) (d1 d2 : bool)
      (fuel : nat) :
  forall s1 s2 : state W,
    same_run s1 s2 ->
    agree (while_true fuel (poll (with_debug a d1) rc dir) s1)
          (while_true fuel (poll (with_debug a d2) rc dir) s2).
Proof.
  induction fuel as [|n IH]; intros s1 s2 Hs; cbn [while_true].
  - now apply agree_ret.
  - apply agree_bind; [now apply poll_agree | intros ? t1 t2 Ht].
    now apply IH.
Qed.

Lemma resolve_agree (a : args) (cfg : config) (d1 d2 : bool)
      (s1 s2 : state W) :
  same_run s1 s2 ->
  agree (resolve_repo_config (with_debug a d1) cfg s1)
        (resolve_repo_config (with_debug a d2) cfg s2).
Proof.
  intros Hs. unfold resolve_repo_config.
  cbn [debug repo repo_url token with_debug].
  apply agree_bind; [now apply agree_lift | intros o t1 t2 Ht].
  destruct o as [rc|].
  - destruct (truthy (token a)); repeat agree_step.
  - destruct (truthy (repo_url a)); repeat agree_step.
Qed.

(** X13.  The [debug] flag changes only what is printed: two runs of
    [main] that differ in the flag alone end with the same outcome, after
    the same primitive calls with the same answers, with the same host
    state, the same [config.json] and the same value of [process]. *)
Theorem debug_only_prints (fuel : nat) (a : args) (d1 d2 : bool)
        (s : state W) :
  fst (main fuel (with_debug a d1) s) = fst (main fuel (with_debug a d2) s)
  /\ world (snd (main fuel (with_debug a d1) s))
     = world (snd (main fuel (with_debug a d2) s))
  /\ config_file (snd (main fuel (with_debug a d1) s))
     = config_file (snd (main fuel (with_debug a d2) s))
  /\ trace (snd (main fuel (with_debug a d1) s))
     = trace (snd (main fuel (with_debug a d2) s))
  /\ process (snd (main fuel (with_debug a d1) s))
     = process (snd (main fuel (with_debug a d2) s)).
Proof.
  assert (Hs : same_run s s) by now repeat split.
  change (agree (main fuel (with_debug a d1) s)
                (main fuel (with_debug a d2) s)).
  unfold main. cbn [command with_debug].
  destruct (command a) as [c|]; [| repeat agree_step].
  assert (Hstart : agree (bind (startup (with_debug a d1))
                            (supervise fuel (with_debug a d1)) s)
                         (bind (startup (with_debug a d2))
                            (supervise fuel (with_debug a d2)) s)).
  { apply agree_bind.
    - unfold startup. cbn [debug start_file with_debug].
      apply agree_bind; [now apply agree_load_config | intros cfg t1 t2 Ht].
      apply agree_bind; [now apply resolve_agree | intros o u1 u2 Hu].
      apply agree_bind; [destruct o; repeat agree_step | intros rc v1 v2 Hv].
      apply agree_bind; [now apply agree_print | intros ? x1 x2 Hx].
      apply agree_bind; [now apply sync_agree | intros ? y1 y2 Hy].
      apply agree_bind; [now apply agree_print | intros ? z1 z2 Hz].
      apply agree_bind; [now apply start_agree | intros p q1 q2 Hq].
      repeat agree_step.
    - intros rc t1 t2 Ht. unfold supervise, on_interrupt, terminate, wait.
      cbn [debug with_debug].
      apply agree_try.
      + apply agree_bind; [now apply loop_agree | intros ? u1 u2 Hu].
        now apply agree_ret.
      + intros e u1 u2 Hu. destruct (is_KeyboardInterrupt e); [| exact I].
        repeat agree_step. }
  destruct (String.eqb_spec c "start") as [-> | Hne]; [exact Hstart |].
  assert (Hother : forall X (x y : X),
             match c with "start" => x | _ => y end = y).
  { intros X x y.
    repeat (match goal with
            | |- context [match ?c with EmptyString => _ | String _ _ => _ end] =>
                destruct c as [|? ?]; try reflexivity
            | |- context [match ?ch with Ascii _ _ _ _ _ _ _ _ => _ end] =>
                destruct ch as [[] [] [] [] [] [] [] []]; try reflexivity
            end); contradiction. }
  rewrite !Hother. repeat agree_step.
Qed.
End Debug.

(** ** The loop, continued *)

Section LoopMore.
Context {W : Type} `{Host W}.

(** X14.  A turn of the loop whose fetch fails with a [GitCommandError]
    returns normally after the sleep and the four git calls: the supervised
    process is neither terminated nor restarted, and [process] is kept, so
    the loop goes on to the next sleep. *)
Theorem poll_fetch_failure_keeps_process (a : args) (rc : entry)
        (dir : string) (auth : option string) (msg : string)
        (s : state W) (w0 w1 w2 w3 w4 : W) :
  get_authenticated_url (rc !! "url") (rc !! "token") = Return auth ->
  time_sleep (check_time a) (world s) = (Return tt, w0) ->
  os_path_exists (path_join dir ".git") w0 = (Return true, w1) ->
  Repo_open dir w1 = (Return tt, w2) ->
  remotes_origin dir w2 = (Return tt, w3) ->
  origin_fetch dir w3 = (Raise (GitCommandError msg), w4) ->
  fst (poll a rc dir s) = Return tt
  /\ process (snd (poll a rc dir s)) = process s
  /\ world (snd (poll a rc dir s)) = w4
  /\ trace (snd (poll a rc dir s))
     = (trace s ++ [Event (CSleep (check_time a)) (Return VNone);
                    Event (CExists (path_join dir ".git"))
                          (Return (VBool true));
                    Event (COpen dir) (Return VNone);
                    Event (COrigin dir) (Return VNone);
                    Event (CFetch dir) (Raise (GitCommandError msg))])%list.
Proof.
  intros Hauth Hsleep Hgit Hopen Horigin Hfetch.
  unfold poll, clone_or_update_repo. rewrite Hauth.
  destruct (debug a); run_prog; rewrite <- ?app_assoc; repeat split.
Qed.

(** X15.  The [try] statement of [main] catches [KeyboardInterrupt] only.
    When the loop raises anything else (an error of the git client that is
    no [GitCommandError], the [SystemExit] of a missing entry file), [main]
    ends with that exception in the very state the loop left: no
    [terminate] and no [wait] is called on the supervised process. *)
Theorem loop_error_ends_main (fuel : nat) (a : args) (rc : entry) (e : exn)
        (s s0 s1 : state W) :
  command a = Some "start" ->
  startup a s = (Return rc, s0) ->
  while_true fuel (poll a rc local_repo_dir) s0 = (Raise e, s1) ->
  e <> KeyboardInterrupt ->
  main fuel a s = (Raise e, s1).
Proof.
  intros Hcmd Hstart Hloop Hne.
  unfold main. rewrite Hcmd. unfold bind at 1. rewrite Hstart.
  unfold supervise, try_except, bind at 1. rewrite Hloop.
  unfold on_interrupt. destruct e; try reflexivity. contradiction.
Qed.

(** X16.  When a restart finds the entry file missing, the old process has
    been terminated and waited on before: the restart ends with
    [sys.exit(1)] after these three calls, and no handle is live. *)
Theorem restart_entry_missing (a : args) (dir : string) (p : handle)
        (code : Z) (s : state W) (w1 w2 w3 : W) :
  process s = Some p ->
  live (trace s) = [p] ->
  Popen_terminate p (world s) = (Return tt, w1) ->
  Popen_wait p w1 = (Return code, w2) ->
  os_path_exists (path_join dir (start_file a)) w2 = (Return false, w3) ->
  fst (restart a dir s) = Raise (SystemExit 1)
  /\ trace (snd (restart a dir s))
     = (trace s ++ [Event (CTerminate p) (Return VNone);
                    Event (CWait p) (Return (VInt code));
                    entry_missing (path_join dir (start_file a))])%list
  /\ live (trace (snd (restart a dir s))) = [].
Proof.
  intros Hp Hlive Hterm Hwait Hentry.
  assert (Hrun : fst (restart a dir s) = Raise (SystemExit 1)
                 /\ trace (snd (restart a dir s))
                    = (trace s ++ [Event (CTerminate p) (Return VNone);
                                   Event (CWait p) (Return (VInt code));
                                   entry_missing
                                     (path_join dir (start_file a))])%list).
  { unfold restart, run_start_file, entry_missing.
    destruct (debug a); run_prog; rewrite Hp; run_prog;
      rewrite <- ?app_assoc; split; reflexivity. }
  destruct Hrun as [Hr Ht]. split; [exact Hr |]. split; [exact Ht |].
  rewrite Ht, live_app, Hlive. cbn. unfold live_after. cbn.
  now rewrite Nat.eqb_refl.
Qed.

(** X17.  Without the [start] command [main] prints the help text and
    returns: [config.json] is not read (a file that does not parse raises
    nothing), and no primitive is called. *)
Theorem main_without_start (fuel : nat) (a : args) (s : state W) :
  command a <> Some "start" ->
  main fuel a s
  = (Return HelpShown,
     mkState (world s) (config_file s) (stdout s ++ [help_text]) (trace s)
             (process s)).
Proof.
  intros Hcmd. unfold main.
  destruct (command a) as [c|]; [| reflexivity].
  destruct (String.eqb_spec c "start") as [-> | Hne]; [contradiction |].
  assert (Hother : forall X (x y : X),
             match c with "start" => x | _ => y end = y).
  { intros X x y.
    repeat (match goal with
            | |- context [match ?c with EmptyString => _ | String _ _ => _ end] =>
                destruct c as [|? ?]; try reflexivity
            | |- context [match ?ch with Ascii _ _ _ _ _ _ _ _ => _ end] =>
                destruct ch as [[] [] [] [] [] [] [] []]; try reflexivity
            end); contradiction. }
  rewrite Hother. reflexivity.
Qed.
End LoopMore.

(** ** The supervised process while polling *)

Lemma loop_run_live (secs : Z) (path : string) (p p' : handle)
      (r : outcome unit) (evs : list event) :
  loop_run secs path p r evs p' ->
  r = Return tt ->
  forall t,
    well_sequenced t -> live t = [p] -> last_started t = Some p ->
    live (t ++ evs) = [p'].
Proof.
  induction 1 as [p | p e evs p' Hpoll | p evs p' r evs' p'' Hpoll _ IH];
    intros Hr t Hws Hlive Hlast.
  - now rewrite app_nil_r.
  - discriminate.
  - destruct (poll_run_sequenced _ _ _ _ _ _ Hpoll t Hws Hlive Hlast)
      as (H1 & H2 & H3).
    rewrite app_assoc. apply IH; auto.
Qed.

Section Polling.
Context {W : Type} `{Host W}.

(** X18.  As long as [main] is polling (it has not ended after the given
    number of turns), exactly one supervised process is live, and it is the
    one [process] holds, the most recently started. *)
Theorem polling_has_one_live_process (fuel : nat) (a : args)
        (s s' : state W) :
  trace s = [] ->
  main fuel a s = (Return StillPolling, s') ->
  exists p,
    process s' = Some p
    /\ live (trace s') = [p]
    /\ last_started (trace s') = Some p.
Proof.
  intros Hnil Hrun.
  destruct (decide (command a = Some "start")) as [Hcmd | Hcmd].
  2: { destruct (main_help fuel a s Hcmd) as [Hr _]. rewrite Hrun in Hr.
       discriminate. }
  unfold main in Hrun. rewrite Hcmd in Hrun.
  apply bind_inv in Hrun as [(rc & s0 & Hstart & Hrun) | (e & _ & Habs)];
    [| discriminate].
  apply startup_sound in Hstart as (evs & ro & Ht0 & Hsr & p0 & -> & Hp0).
  apply startup_run_sequenced in Hsr as [Hws Hret].
  destruct (Hret p0 eq_refl) as [Hlive Hlast].
  rewrite Hnil in Ht0. cbn [app] in Ht0.
  revert Hrun. unfold supervise, try_except, bind at 1.
  destruct (while_true fuel (poll a rc local_repo_dir) s0) as [rl s1] eqn:Hloop.
  apply loop_sound with (p := p0) in Hloop as (evs' & p & Ht1 & Hp & Hlr);
    [| exact Hp0].
  destruct rl as [[]|e].
  - unfold ret. intros [= <-]. exists p. rewrite Ht1, Ht0.
    split; [exact Hp |]. split.
    + now apply (loop_run_live _ _ _ _ _ _ Hlr).
    + now apply (loop_run_sequenced _ _ _ _ _ _ Hlr).
  - destruct (on_interrupt a e) as [h|] eqn:Hh; [| discriminate].
    intros Hrun.
    destruct (stop_sound a p e h s1 s' _ Hp Hh Hrun) as (_ & evs2 & _ & Hstop).
    inversion Hstop.
Qed.
End Polling.

(** ** When the supervised process is terminated *)

Lemma quiet_not_terminate (evs : list event) :
  forallb quiet evs = true ->
  forallb (fun e => negb (terminate_event e)) evs = true.
Proof.
  induction evs as [|e evs IH]; [reflexivity |].
  cbn [forallb]. intros Hq. apply andb_true_iff in Hq as [He Hq].
  rewrite (IH Hq), andb_true_r.
  destruct e as [[] r]; try reflexivity; discriminate.
Qed.

Lemma justified_snoc_other (t : list event) (e : event) :
  terminations_justified t ->
  terminate_event e = false ->
  terminations_justified (t ++ [e]).
Proof.
  intros Ht He pre h res post Heq.
  apply snoc_split in Heq as [[Habs _] | (post' & Hpost & ->)];
    [discriminate |].
  destruct post' as [|x post'].
  - cbn in Hpost. injection Hpost as <-. discriminate.
  - injection Hpost as <- _. eapply Ht. reflexivity.
Qed.

Lemma justified_app_other (t evs : list event) :
  terminations_justified t ->
  forallb (fun e => negb (terminate_event e)) evs = true ->
  terminations_justified (t ++ evs).
Proof.
  revert t. induction evs as [|e evs IH]; intros t Ht Hevs.
  - now rewrite app_nil_r.
  - cbn [forallb] in Hevs. apply andb_true_iff in Hevs as [He Hevs].
    change (e :: evs) with ([e] ++ evs)%list. rewrite app_assoc.
    apply IH; [| exact Hevs].
    apply justified_snoc_other; [exact Ht |].
    now destruct (terminate_event e).
Qed.

Lemma justified_snoc_terminate (t : list event) (h : handle)
      (res : outcome value) :
  terminations_justified t ->
  calls_for_terminate (last t) ->
  terminations_justified (t ++ [Event (CTerminate h) res]).
Proof.
  intros Ht Hlast pre h' res' post Heq.
  apply snoc_split in Heq as [[Habs _] | (post' & Hpost & ->)];
    [discriminate |].
  destruct post' as [|x post'].
  - now rewrite app_nil_r in Hlast.
  - injection Hpost as <- _. eapply Ht. reflexivity.
Qed.

Lemma justified_nil : terminations_justified [].
Proof.
  intros pre h res post Heq. symmetry in Heq.
  apply app_eq_nil in Heq as [_ Habs]. discriminate.
Qed.

Lemma start_run_no_terminate (path : string) (r : outcome handle)
      (evs : list event) :
  start_run path r evs ->
  forallb (fun e => negb (terminate_event e)) evs = true.
Proof. destruct 1; reflexivity. Qed.

Lemma restart_run_shape (path : string) (p p' : handle) (r : outcome unit)
      (evs : list event) :
  restart_run path p r evs p' ->
  exists res rest,
    evs = Event (CTerminate p) res :: rest
    /\ forallb (fun e => negb (terminate_event e)) rest = true.
Proof.
  destruct 1 as [e | e | rc e evs Hstart | rc p' evs Hstart];
    eexists _, _; (split; [reflexivity |]); try reflexivity;
    cbn [forallb terminate_event negb andb];
    exact (start_run_no_terminate _ _ _ Hstart).
Qed.

Lemma stop_run_shape (p : handle) (r : outcome main_result)
      (evs : list event) :
  stop_run p r evs ->
  exists res rest,
    evs = Event (CTerminate p) res :: rest
    /\ forallb (fun e => negb (terminate_event e)) rest = true.
Proof. destruct 1; eexists _, _; split; reflexivity. Qed.

(** An interrupt that leaves the loop was raised by its last call. *)
Lemma loop_run_interrupted (secs : Z) (path : string) (p p' : handle)
      (r : outcome unit) (evs : list event) :
  loop_run secs path p r evs p' ->
  r = Raise KeyboardInterrupt ->
  exists c, last evs = Some (Event c (Raise KeyboardInterrupt)).
Proof.
  induction 1 as [p | p e evs p' Hpoll | p evs p' r evs' p'' _ _ IH];
    intros Hr.
  - discriminate.
  - injection Hr as ->.
    inversion Hpoll as [e0 | e0 evs0 Hsync | | evs0 r0 evs1 p1 Hsync Hrestart];
      subst.
    + eexists. reflexivity.
    + destruct Hsync as [_ [[_ Habs] | (c & Hlast)]]; [discriminate |].
      exists c.
      change (Event (CSleep secs) (Return VNone) :: evs0)
        with ([Event (CSleep secs) (Return VNone)] ++ evs0)%list.
      now rewrite last_app, Hlast.
    + change (Event (CSleep secs) (Return VNone) :: evs0 ++ evs1)%list
        with ((Event (CSleep secs) (Return VNone) :: evs0) ++ evs1)%list.
      rewrite last_app.
      inversion Hrestart as [e1 | e1 | rc e1 evs2 Hstart | ]; subst.
      * eexists. reflexivity.
      * eexists. reflexivity.
      * inversion Hstart; subst; eexists; reflexivity.
  - destruct (IH Hr) as (c & Hlast). exists c. now rewrite last_app, Hlast.
Qed.

Section Terminations.
Context {W : Type} `{Host W}.

Lemma sync_true_last (rc : entry) (dir : string) (dbg : bool)
      (s s' : state W) :
  clone_or_update_repo rc dir dbg s = (Return true, s') ->
  exists evs c,
    trace s' = (trace s ++ evs)%list
    /\ last evs = Some (Event c (Return VNone))
    /\ changed_call c = true.
Proof.
  unfold clone_or_update_repo.
  destruct (get_authenticated_url (rc !! "url") (rc !! "token"))
    as [auth|e]; [| unfold_prog; discriminate].
  destruct dbg; all_runs; intros Heq; try discriminate Heq;
    injection Heq as <-; cbn [trace];
    rewrite <- ?app_assoc; cbn [app];
    eexists _, _; (split; [reflexivity |]); split; reflexivity.
Qed.

Lemma poll_justified (a : args) (rc : entry) (dir : string) (p : handle)
      (s s' : state W) (r : outcome unit) :
  terminations_justified (trace s) ->
  process s = Some p ->
  poll a rc dir s = (r, s') ->
  terminations_justified (trace s').
Proof.
  intros Htj Hp. unfold poll. intros Hrun.
  apply bind_inv in Hrun as [(u & s1 & Hsleep & Hrun) | (e & Hsleep & ->)].
  2: { revert Hsleep. unfold sleep, prim.
       destruct (time_sleep (check_time a) (world s)) as [rs w1].
       intros [= -> <-]. cbn [trace].
       now apply justified_snoc_other. }
  revert Hsleep. unfold sleep, prim.
  destruct (time_sleep (check_time a) (world s)) as [rs w1].
  intros [= -> <-].
  destruct (bind_when_print (debug a) "[DEBUG] Checking for updates..."
              (fun _ => bind (clone_or_update_repo rc dir (debug a))
                          (fun updated => if updated then restart a dir
                                          else ret tt))
              (mkState w1 (config_file s) (stdout s)
                 (trace s ++ [Event (CSleep (check_time a)) (Return VNone)])
                 (process s))) as (s2 & Hk & Ht2 & _ & Hp2 & _).
  rewrite Hk in Hrun. clear Hk. cbn [trace process] in Ht2, Hp2.
  assert (Htj2 : terminations_justified (trace s2))
    by (rewrite Ht2; now apply justified_snoc_other).
  apply bind_inv in Hrun as [(b & s3 & Hsync & Hrun) | (e & Hsync & ->)].
  2: { apply sync_sound in Hsync as (_ & evs & -> & [Hq _]).
       apply justified_app_other; [exact Htj2 | now apply quiet_not_terminate]. }
  pose proof Hsync as Hsync'.
  apply sync_sound in Hsync' as (Hp3 & evs & Ht3 & [Hq _]).
  assert (Htj3 : terminations_justified (trace s3)).
  { rewrite Ht3. apply justified_app_other; [exact Htj2 |].
    now apply quiet_not_terminate. }
  destruct b; [| now injection Hrun as _ <-].
  apply sync_true_last in Hsync as (evs0 & c & Ht3' & Hlast & Hc).
  apply restart_sound with (p := p) in Hrun as (evs' & p' & Ht & _ & Hrr);
    [| congruence].
  apply restart_run_shape in Hrr as (res & rest & -> & Hrest).
  rewrite Ht.
  change (Event (CTerminate p) res :: rest)
    with ([Event (CTerminate p) res] ++ rest)%list.
  rewrite app_assoc. apply justified_app_other; [| exact Hrest].
  apply justified_snoc_terminate; [exact Htj3 |].
  rewrite Ht3', last_app, Hlast. left. now exists c, VNone.
Qed.

Lemma loop_justified (a : args) (rc : entry) (dir : string) (fuel : nat) :
  forall (p : handle) (s s' : state W) (r : outcome unit),
    terminations_justified (trace s) ->
    process s = Some p ->
    while_true fuel (poll a rc dir) s = (r, s') ->
    terminations_justified (trace s').
Proof.
  induction fuel as [|n IH]; intros p s s' r Htj Hp; cbn [while_true].
  - now intros [= _ <-].
  - intros Hrun.
    apply bind_inv in Hrun as [(u & s1 & Hpoll & Hrun) | (e & Hpoll & _)].
    + pose proof (poll_justified _ _ _ _ _ _ _ Htj Hp Hpoll) as Htj1.
      apply poll_sound with (p := p) in Hpoll as (_ & p' & _ & Hp' & _);
        [| exact Hp].
      now apply (IH p' s1 s' r).
    + now apply (poll_justified _ _ _ _ _ _ _ Htj Hp Hpoll).
Qed.

(** X19.  In a run of [main] from an empty trace, [terminate] is called
    only right after a clone or a pull that returned (a pass that reports a
    change) or right after a call that raised [KeyboardInterrupt]: a pass
    that finds nothing new, or that fails, never stops the supervised
    process. *)
Theorem terminate_only_on_change_or_interrupt (fuel : nat) (a : args)
        (s : state W) :
  trace s = [] ->
  terminations_justified (trace (snd (main fuel a s))).
Proof.
  intros Hnil.
  destruct (decide (command a = Some "start")) as [Hcmd | Hcmd].
  2: { destruct (main_help fuel a s Hcmd) as [_ ->]. rewrite Hnil.
       exact justified_nil. }
  destruct (main fuel a s) as [r s'] eqn:Hrun. cbn [snd].
  unfold main in Hrun. rewrite Hcmd in Hrun.
  assert (Hstartup : forall ro evs,
             startup_run (unknown_without_url a s) (entry_path a) ro evs ->
             terminations_justified evs).
  { intros ro evs Hsr.
    apply (justified_app_other [] evs justified_nil).
    destruct Hsr as [e _ _ | e evs _ [Hq _] | b r0 evs evs' _ [Hq _] Hst].
    - reflexivity.
    - now apply quiet_not_terminate.
    - rewrite forallb_app, (quiet_not_terminate _ Hq).
      exact (start_run_no_terminate _ _ _ Hst). }
  apply bind_inv in Hrun as [(rc & s0 & Hstart & Hrun) | (e & Hstart & _)].
  2: { apply startup_sound in Hstart as (evs & ro & Ht0 & Hsr & _).
       rewrite Ht0, Hnil. cbn [app]. now apply (Hstartup ro). }
  apply startup_sound in Hstart as (evs & ro & Ht0 & Hsr & p0 & -> & Hp0).
  rewrite Hnil in Ht0. cbn [app] in Ht0.
  assert (Htj0 : terminations_justified (trace s0))
    by (rewrite Ht0; now apply (Hstartup (Return p0))).
  revert Hrun. unfold supervise, try_except, bind at 1.
  destruct (while_true fuel (poll a rc local_repo_dir) s0) as [rl s1] eqn:Hloop.
  pose proof (loop_justified _ _ _ _ _ _ _ _ Htj0 Hp0 Hloop) as Htj1.
  apply loop_sound with (p := p0) in Hloop as (evs' & p & Ht1 & Hp & Hlr);
    [| exact Hp0].
  destruct rl as [[]|e]; [now intros [= _ <-] |].
  destruct (on_interrupt a e) as [h|] eqn:Hh; [| now intros [= _ <-]].
  intros Hrun.
  destruct (stop_sound a p e h s1 s' r Hp Hh Hrun) as (-> & evs2 & -> & Hstop).
  apply stop_run_shape in Hstop as (res & rest & -> & Hrest).
  change (Event (CTerminate p) res :: rest)
    with ([Event (CTerminate p) res] ++ rest)%list.
  rewrite app_assoc. apply justified_app_other; [| exact Hrest].
  apply justified_snoc_terminate; [exact Htj1 |].
  destruct (loop_run_interrupted _ _ _ _ _ _ Hlr eq_refl) as (c & Hlast).
  right. exists c. now rewrite Ht1, last_app, Hlast.
Qed.
End Terminations.

(** ** Further runs on the simulated host *)

Lemma store_without_repos_witness :
  get_repo_config ∅ 7 = Raise (KeyError "repos")
  /\ update_repo_config ∅ 7 (Some "https://h/r.git") None
       (init (fresh_sim []) None)
     = (Raise (KeyError "repos"), init (fresh_sim []) None).
Proof.
  exact (store_without_repos ∅ 7 (Some "https://h/r.git") None
           (init (fresh_sim []) None) (lookup_empty _)).
Defined.

Lemma update_repo_config_idempotent_witness :
  exists (cfg1 : config) (s1 : state sim),
    update_repo_config demo_config 7 None (Some "s3cr3t")
      (init (fresh_sim []) None) = (Return cfg1, s1)
    /\ update_repo_config cfg1 7 None (Some "s3cr3t") s1 = (Return cfg1, s1).
Proof.
  pose proof (update_repo_config_eq demo_config
                {[ "7" := {[ "url" := "https://h/r.git" ]} ]} 7 None
                (Some "s3cr3t") (init (fresh_sim []) None)
                (lookup_singleton_eq _ _)) as Hrun.
  eexists _, _. split; [exact Hrun |].
  exact (update_repo_config_idempotent _ _ _ _ _ _ _ _
           (lookup_singleton_eq _ _) Hrun).
Defined.

Lemma update_repo_config_nothing_given_witness :
  update_repo_config demo_config 7 None (Some "") (init (fresh_sim []) None)
  = (Return demo_config,
     mkState (fresh_sim []) (Some (Json demo_config)) [] [] None).
Proof.
  exact (update_repo_config_nothing_given demo_config
           {[ "7" := {[ "url" := "https://h/r.git" ]} ]}
           {[ "url" := "https://h/r.git" ]} 7 None (Some "")
           (init (fresh_sim []) None)
           (lookup_singleton_eq _ _) (lookup_singleton_eq _ _)
           eq_refl eq_refl).
Defined.

Lemma resolve_known_witness :
  exists (e' : entry) (s' : state sim),
    resolve_repo_config
      (start_args (Some "s3cr3t") (Some "https://other/x.git"))
      demo_config (init (fresh_sim []) None)
    = (Return (Some e'), s')
    /\ e' !! "url" = Some "https://h/r.git"
    /\ e' !! "token" = Some "s3cr3t".
Proof.
  destruct (resolve_known
              (start_args (Some "s3cr3t") (Some "https://other/x.git"))
              demo_config {[ "7" := {[ "url" := "https://h/r.git" ]} ]}
              {[ "url" := "https://h/r.git" ]} (init (fresh_sim []) None)
              (lookup_singleton_eq _ _) (lookup_singleton_eq _ _))
    as (e' & s' & Hrun & Hurl & Htok & _).
  exists e', s'. split; [exact Hrun |]. split.
  - rewrite Hurl. apply lookup_singleton_eq.
  - exact Htok.
Defined.

Lemma resolve_unknown_registers_witness :
  exists (e' : entry) (cfg' : config) (s' : state sim),
    resolve_repo_config (start_args None (Some "https://h/r.git"))
      empty_config (init (fresh_sim []) None)
    = (Return (Some e'), s')
    /\ config_file s' = Some (Json cfg')
    /\ get_repo_config cfg' 7 = Return (Some e')
    /\ e' !! "url" = Some "https://h/r.git"
    /\ e' !! "token" = None.
Proof.
  destruct (resolve_unknown_registers
              (start_args None (Some "https://h/r.git"))
              empty_config ∅ "https://h/r.git" (init (fresh_sim []) None)
              (lookup_singleton_eq _ _) (lookup_empty _) eq_refl)
    as (e' & cfg' & s' & Hrun & Hfile & Hget & Hurl & Htok & _).
  exists e', cfg', s'. repeat split; assumption.
Defined.

Lemma main_malformed_config_witness :
  main 2 demo_args (init (fresh_sim []) (Some Malformed))
  = (Raise JSONDecodeError, init (fresh_sim []) (Some Malformed)).
Proof.
  exact (main_malformed_config 2 demo_args
           (init (fresh_sim []) (Some Malformed)) eq_refl eq_refl).
Defined.

Lemma poll_fetch_failure_keeps_process_witness :
  fst (poll demo_args demo_entry "/srv/snt/repo" fetch_fails_in_turn)
  = Return tt
  /\ process (snd (poll demo_args demo_entry "/srv/snt/repo"
                     fetch_fails_in_turn))
     = process fetch_fails_in_turn.
Proof.
  refine (let H := poll_fetch_failure_keeps_process demo_args demo_entry
                     "/srv/snt/repo" (Some "https://h/r.git")
                     "exit code(128)" fetch_fails_in_turn _ _ _ _ _
                     _ _ _ _ _ _ in
          conj (proj1 H) (proj1 (proj2 H))).
  - vm_compute; reflexivity.
  - vm_compute; reflexivity.
  - vm_compute; reflexivity.
  - vm_compute; reflexivity.
  - vm_compute; reflexivity.
  - vm_compute; reflexivity.
Defined.

Lemma loop_error_ends_main_witness :
  fst (main 2 demo_args detached_in_loop) = Raise TypeError.
Proof.
  assert (Hstart : startup demo_args detached_in_loop
                   = (Return demo_entry,
                      snd (startup demo_args detached_in_loop)))
    by (vm_compute; reflexivity).
  assert (Hloop : while_true 2 (poll demo_args demo_entry local_repo_dir)
                    (snd (startup demo_args detached_in_loop))
                  = (Raise TypeError,
                     snd (while_true 2
                            (poll demo_args demo_entry local_repo_dir)
                            (snd (startup demo_args detached_in_loop)))))
    by (vm_compute; reflexivity).
  rewrite (loop_error_ends_main 2 demo_args demo_entry TypeError
             detached_in_loop _ _ eq_refl Hstart Hloop ltac:(discriminate)).
  reflexivity.
Defined.

Lemma restart_entry_missing_witness :
  fst (restart demo_args "/srv/snt/repo" entry_gone) = Raise (SystemExit 1)
  /\ live (trace (snd (restart demo_args "/srv/snt/repo" entry_gone))) = [].
Proof.
  refine (let H := restart_entry_missing demo_args "/srv/snt/repo" 100
                     (-15)%Z entry_gone _ _ _ eq_refl eq_refl _ _ _ in
          conj (proj1 H) (proj2 (proj2 H))).
  - vm_compute; reflexivity.
  - vm_compute; reflexivity.
  - vm_compute; reflexivity.
Defined.

Lemma main_without_start_witness :
  main 2 no_command (init (fresh_sim []) (Some Malformed))
  = (Return HelpShown,
     mkState (fresh_sim []) (Some Malformed) [help_text] [] None).
Proof.
  exact (main_without_start 2 no_command
           (init (fresh_sim []) (Some Malformed)) ltac:(discriminate)).
Defined.

Lemma polling_has_one_live_process_witness :
  exists p,
    process (snd (main 2 demo_args upstream_advances)) = Some p
    /\ live (trace (snd (main 2 demo_args upstream_advances))) = [p]
    /\ last_started (trace (snd (main 2 demo_args upstream_advances)))
       = Some p.
Proof.
  apply (polling_has_one_live_process 2 demo_args upstream_advances _ eq_refl).
  vm_compute; reflexivity.
Defined.

Lemma terminate_only_on_change_or_interrupt_witness :
  terminations_justified (trace (snd (main 2 demo_args upstream_advances))).
Proof.
  exact (terminate_only_on_change_or_interrupt 2 demo_args upstream_advances
           eq_refl).
Defined.
